(** * Best-first route search (informedsearch/GPS-BestFirst.py)

    A shallow embedding of the classes [City], [Map], [Route] and
    [GPSGreedyBestFirst], and the properties of the frontier, the distance
    function and the search loop.

    Modelling conventions.
    - Python [float] values (coordinates, costs, estimates) are read as real
      numbers: [R] of the Standard Library, [**(1/2)] of a sum of squares as
      [sqrt], [<] as [Rlt_dec].  Rounding is not modelled: scores that tie
      in the reals may differ by one unit in the last place in the source,
      and the [OverflowError] of [**] on coordinates some 1e154 apart has no
      counterpart here.
    - [str] keys are [string]; Python lists are [list].
    - The enumeration [Map] is a list of [City] in definition order; a member
      is named by the [id] of its city, as in the source table.
    - An exception is a value of [exn]; a call that may raise returns a
      [result].  State changes of the engine object are explicit: a method
      takes the engine and returns the new engine.
    - The [logging] calls that mark a state change or an outcome are kept
      as a trace of [event]s carried by the engine. *)

From Stdlib Require Import List String Bool Arith Lia Reals Lra Psatz.
From Stdlib Require Import Permutation.
Import ListNotations.

Open Scope string_scope.
Open Scope list_scope.
Open Scope R_scope.

(** ** Exceptions and results *)

Inductive exn : Type :=
| KeyError (key : string)   (* Map[key] on an unknown member name *)
| IndexError.               (* [][-1] and [].pop(-1) *)

Inductive result (A : Type) : Type :=
| Ok (a : A)
| Raise (e : exn).

Arguments Ok {A} a.
Arguments Raise {A} e.

Definition is_raise {A : Type} (r : result A) : bool :=
  match r with
  | Ok _ => false
  | Raise _ => true
  end.

(** ** class City *)

Record City : Type := mkCity {
  id : string;
  latitude : R;
  longitude : R;
  neighbours : list string
}.

(** ** class Route *)

Record Route : Type := mkRoute {
  cities_ids : list string;
  cost : R;
  evaluation : R
}.

Definition heuristic (r : Route) : R := cost r + evaluation r.

(** [l[-1]]: the last element, [IndexError] on the empty list. *)
Fixpoint last_item {A : Type} (l : list A) : result A :=
  match l with
  | [] => Raise IndexError
  | [x] => Ok x
  | _ :: l' => last_item l'
  end.

Definition last_city_id (r : Route) : result string := last_item (cities_ids r).

(** [l.pop(-1)]: the list without its last element, and that element. *)
Fixpoint pop_last {A : Type} (l : list A) : option (list A * A) :=
  match l with
  | [] => None
  | x :: l' =>
      match pop_last l' with
      | None => Some ([], x)
      | Some (init, y) => Some (x :: init, y)
      end
  end.

(** [key in l] on a list of strings. *)
Definition mem (key : string) (l : list string) : bool :=
  existsb (String.eqb key) l.

(** ** Trace of the logging calls *)

Inductive event : Type :=
| Starting (origin destination : string)
| RouteAdded (route : Route)
| NeighbourSkipped (key : string)
| Analysing (route : Route)
| AddedToVisited (key : string)
| RouteFound (route : Route)
| NoRouteFound (origin destination : string).

(** ** class GPSGreedyBestFirst: the engine object *)

Record GPSGreedyBestFirst : Type := mkGPS {
  fringe : list Route;
  visited : list string;
  trace : list event
}.

(** [GPSGreedyBestFirst.__init__] *)
Definition init : GPSGreedyBestFirst := mkGPS [] [] [].

Definition emit (e : event) (self : GPSGreedyBestFirst) : GPSGreedyBestFirst :=
  mkGPS (fringe self) (visited self) (trace self ++ [e]).

(** [next_route]: [self.__fringe.pop(-1)] *)
Definition next_route (self : GPSGreedyBestFirst)
    : result Route * GPSGreedyBestFirst :=
  match pop_last (fringe self) with
  | None => (Raise IndexError, self)
  | Some (rest, r) => (Ok r, mkGPS rest (visited self) (trace self))
  end.

(** The [for ... else] of [add_route] on the list alone: the new route goes
    in front of the first route whose heuristic is below its own, and to the
    end when the scan finds none. *)
Fixpoint insert_route (fringe : list Route) (route : Route) : list Route :=
  match fringe with
  | [] => [route]
  | curr_route :: rest =>
      if Rlt_dec (heuristic curr_route) (heuristic route)
      then route :: curr_route :: rest
      else curr_route :: insert_route rest route
  end.

Definition add_route (self : GPSGreedyBestFirst) (route : Route)
    : GPSGreedyBestFirst :=
  mkGPS (insert_route (fringe self) route) (visited self)
        (trace self ++ [RouteAdded route]).

(** ** class Map: lookups and distance, over the list of its cities *)

Section Graph.

Variable Map : list City.

(** [Map[key].value] *)
Definition Map_getitem (key : string) : result City :=
  match find (fun city => String.eqb (id city) key) Map with
  | Some city => Ok city
  | None => Raise (KeyError key)
  end.

Definition get_neighbours (key : string) : list string :=
  match find (fun city => String.eqb (id city) key) Map with
  | Some city => neighbours city
  | None => []
  end.

Definition calc_cartesian_distance (id_a id_b : string) : result R :=
  match Map_getitem id_a with
  | Raise e => Raise e
  | Ok cityA =>
      match Map_getitem id_b with
      | Raise e => Raise e
      | Ok cityB =>
          Ok (sqrt ((latitude cityA - latitude cityB) ^ 2
                    + (longitude cityA - longitude cityB) ^ 2))
      end
  end.

(** ** The search engine *)

(** The [for neighbour_id in list_of_neighbours_ids] loop. *)
Fixpoint add_routes_loop (self : GPSGreedyBestFirst) (route : Route)
    (last_id : string) (destination : City) (ids : list string)
    : result unit * GPSGreedyBestFirst :=
  match ids with
  | [] => (Ok tt, self)
  | neighbour_id :: ids' =>
      if mem neighbour_id (visited self)
      then add_routes_loop (emit (NeighbourSkipped neighbour_id) self)
                           route last_id destination ids'
      else
        match calc_cartesian_distance last_id neighbour_id with
        | Raise e => (Raise e, self)
        | Ok distance_from_last_city =>
            match calc_cartesian_distance (id destination) neighbour_id with
            | Raise e => (Raise e, self)
            | Ok distance_to_destination =>
                let neighbour_route :=
                  mkRoute (cities_ids route ++ [neighbour_id])
                          (distance_from_last_city + cost route)
                          distance_to_destination in
                add_routes_loop (add_route self neighbour_route)
                                route last_id destination ids'
            end
        end
  end.

Definition add_routes_for_neighbours (self : GPSGreedyBestFirst) (route : Route)
    (destination : City) : result unit * GPSGreedyBestFirst :=
  match last_city_id route with
  | Raise e => (Raise e, self)
  | Ok last_id =>
      add_routes_loop self route last_id destination (get_neighbours last_id)
  end.

(** One pass through the body of the [while self.__fringe] loop: the pass
    ends the call ([return] or an exception) or hands the engine to the next
    test of the loop condition. *)
Inductive pass : Type :=
| Returned (res : result (option Route)) (self : GPSGreedyBestFirst)
| Continue (self : GPSGreedyBestFirst).

Definition loop_body (self : GPSGreedyBestFirst) (destination : City) : pass :=
  match next_route self with
  | (Raise e, self1) => Returned (Raise e) self1
  | (Ok curr_route, self1) =>
      let self2 := emit (Analysing curr_route) self1 in
      match last_city_id curr_route with
      | Raise e => Returned (Raise e) self2
      | Ok last_id =>
          if String.eqb last_id (id destination)
          then Returned (Ok (Some curr_route))
                        (emit (RouteFound curr_route) self2)
          else
            let self3 :=
              emit (AddedToVisited last_id)
                   (mkGPS (fringe self2) (visited self2 ++ [last_id])
                          (trace self2)) in
            match add_routes_for_neighbours self3 curr_route destination with
            | (Raise e, self4) => Returned (Raise e) self4
            | (Ok _, self4) => Continue self4
            end
      end
  end.

(** The [while self.__fringe] loop with its [else] branch.  [fuel] bounds
    the number of passes through the body (one pop each); [None] means the
    bound was reached with routes still in the fringe. *)
Fixpoint search_loop (fuel : nat) (self : GPSGreedyBestFirst)
    (origin destination : City)
    : option (result (option Route) * GPSGreedyBestFirst) :=
  match fringe self with
  | [] =>
      Some (Ok None, emit (NoRouteFound (id origin) (id destination)) self)
  | _ :: _ =>
      match fuel with
      | O => None
      | S fuel' =>
          match loop_body self destination with
          | Returned res self' => Some (res, self')
          | Continue self' => search_loop fuel' self' origin destination
          end
      end
  end.

Definition search (fuel : nat) (self : GPSGreedyBestFirst)
    (origin destination : City)
    : option (result (option Route) * GPSGreedyBestFirst) :=
  let self0 := emit (Starting (id origin) (id destination)) self in
  match calc_cartesian_distance (id origin) (id destination) with
  | Raise e => Some (Raise e, self0)
  | Ok distance_to_destination =>
      let ini_route := mkRoute [id origin] 0 distance_to_destination in
      search_loop fuel (add_route self0 ini_route) origin destination
  end.

(** The routes that [add_routes_for_neighbours] adds, in order, for the
    neighbour list [ids]: one per neighbour that is not in [visited], up to
    the first neighbour whose distance lookup raises. *)
Fixpoint expansion (visited : list string) (route : Route) (last_id : string)
    (destination : City) (ids : list string) : list Route :=
  match ids with
  | [] => []
  | neighbour_id :: ids' =>
      if mem neighbour_id visited
      then expansion visited route last_id destination ids'
      else
        match calc_cartesian_distance last_id neighbour_id,
              calc_cartesian_distance (id destination) neighbour_id with
        | Ok d1, Ok d2 =>
            mkRoute (cities_ids route ++ [neighbour_id]) (d1 + cost route) d2
            :: expansion visited route last_id destination ids'
        | _, _ => []
        end
  end.

End Graph.

Definition keys (Map : list City) : list string := map id Map.

(** ** The table of the source's [Map] enumeration *)

Definition Goiania : City :=
  mkCity "Goiania" (-16.69) (-49.25) ["Hidrolandia"; "BelaVista"].
Definition Hidrolandia : City :=
  mkCity "Hidrolandia" (-16.97) (-49.22) ["Goiania"; "ProfJamil"; "BelaVista"].
Definition BelaVista : City :=
  mkCity "BelaVista" (-16.97) (-48.97)
         ["Goiania"; "Hidrolandia"; "Piracanjuba"; "Cristianopolis"].
Definition ProfJamil : City :=
  mkCity "ProfJamil" (-17.25) (-49.25)
         ["Hidrolandia"; "Morrinhos"; "Piracanjuba"].
Definition Cristianopolis : City :=
  mkCity "Cristianopolis" (-17.19) (-48.70)
         ["BelaVista"; "Piracanjuba"; "CaldasNovas"].
Definition Piracanjuba : City :=
  mkCity "Piracanjuba" (-17.30) (-49.02)
         ["BelaVista"; "ProfJamil"; "CaldasNovas"; "Cristianopolis"; "Formiga"].
Definition Formiga : City := mkCity "Formiga" (-17.65) (-49.08) ["Piracanjuba"].
Definition Morrinhos : City :=
  mkCity "Morrinhos" (-17.73) (-49.12) ["ProfJamil"; "CaldasNovas"].
Definition CaldasNovas : City :=
  mkCity "CaldasNovas" (-17.74) (-48.62)
         ["Cristianopolis"; "Piracanjuba"; "Morrinhos"].

Definition GoiasMap : list City :=
  [ Goiania; Hidrolandia; BelaVista; ProfJamil; Cristianopolis; Piracanjuba;
    Formiga; Morrinhos; CaldasNovas ].

(** ** Other maps, for examples *)

(** The two cities of the specification's scenario, three by four apart. *)
Definition pairG : City := mkCity "G" 0 0 ["H"].
Definition pairH : City := mkCity "H" 3 4 ["G"].
Definition PairMap : list City := [ pairG; pairH ].

(** Five cities on a line.  ["D"] has no road to it; ["C"] is reached from
    ["A"] directly and through ["B1"] and ["B2"]. *)
Definition detourA : City := mkCity "A" 1 0 ["B1"; "B2"; "C"].
Definition detourD : City := mkCity "D" 0 0 [].

Definition DetourMap : list City :=
  [ detourA;
    mkCity "B1" 2 0 ["C"];
    mkCity "B2" 3 0 ["C"];
    mkCity "C" 10 0 [];
    detourD ].

(** Three cities on a line, ["N"] half way from ["A"] to ["B"] and listed
    after ["B"] among the neighbours of ["A"]. *)
Definition collinearA : City := mkCity "A" 0 0 ["B"; "N"].
Definition collinearB : City := mkCity "B" 2 0 [].

Definition CollinearMap : list City :=
  [ collinearA; mkCity "N" 1 0 ["B"]; collinearB ].

(** A route that only carries a score, for frontier examples. *)
Definition scored (name : string) (score : R) : Route := mkRoute [name] score 0.

(** ** The insertion rule in the words of the specification

    "inserts [route] immediately before the first element whose score is
    strictly greater than [route.score]; if none found, appends at the end". *)
Fixpoint insert_before_first_greater (fringe : list Route) (route : Route)
    : list Route :=
  match fringe with
  | [] => [route]
  | curr_route :: rest =>
      if Rlt_dec (heuristic route) (heuristic curr_route)
      then route :: curr_route :: rest
      else curr_route :: insert_before_first_greater rest route
  end.

(** ** The order of the fringe *)

(** Every route of the fringe is followed only by routes whose heuristic is
    at most its own: the heuristic does not increase towards the tail. *)
Fixpoint descending (fringe : list Route) : Prop :=
  match fringe with
  | [] => True
  | r :: rest =>
      Forall (fun r' => heuristic r' <= heuristic r) rest /\ descending rest
  end.

(** The fringe obtained from the empty one by adding [routes] in order. *)
Definition fringe_of (routes : list Route) : list Route :=
  fold_left insert_route routes [].

(** ** A bound on the passes of the search loop *)

(** The longest neighbour list of the map. *)
Definition max_degree (Map : list City) : nat :=
  fold_right (fun city m => Nat.max (List.length (neighbours city)) m)
             0%nat Map.

(** Passes that one route of the fringe can cause, itself and the routes
    that extend it, when [k] cities can still end a new route. *)
Fixpoint route_bound (degree k : nat) : nat :=
  match k with
  | O => 1
  | S k' => degree * route_bound degree k' + 1
  end.

(** The city [city] can still end a route added below [r]: it is not
    visited, or it is the last city of [r] itself. *)
Definition open_for (vis : list string) (r : Route) (city : City) : bool :=
  negb (mem (id city) vis)
  || match last_city_id r with
     | Ok k => String.eqb (id city) k
     | Raise _ => false
     end.

Definition rank (Map : list City) (vis : list string) (r : Route) : nat :=
  List.length (filter (open_for vis r) Map).

Definition weight (Map : list City) (vis : list string) (r : Route) : nat :=
  route_bound (max_degree Map) (rank Map vis r).

(** The number of passes left is at most the sum of the weights. *)
Definition passes_bound (Map : list City) (self : GPSGreedyBestFirst) : nat :=
  list_sum (map (weight Map (visited self)) (fringe self)).

(** ** Roads and reachability *)

(** [b] is in the neighbour list that [get_neighbours] gives for [a]. *)
Definition road (Map : list City) (a b : string) : Prop :=
  In b (get_neighbours Map a).

(** [k] is reached from [origin] through a chain of neighbour links. *)
Inductive reachable (Map : list City) (origin : string) : string -> Prop :=
| reach_origin : reachable Map origin origin
| reach_road (a b : string) :
    reachable Map origin a -> road Map a b -> reachable Map origin b.

(** Every neighbour key of every city names a city of the map. *)
Definition closed_map (Map : list City) : Prop :=
  forall city n, In city Map -> In n (neighbours city) -> In n (keys Map).

(** What holds of the engine during a search from [origin] on a fresh
    engine: routes and visited cities are reachable, every road out of a
    visited city leads to a visited city or to the end of a route waiting
    in the fringe, and so does the origin itself. *)
Record search_inv (Map : list City) (origin : string)
    (self : GPSGreedyBestFirst) : Prop := {
  inv_fringe : forall r, In r (fringe self) ->
    exists k, last_city_id r = Ok k /\ reachable Map origin k;
  inv_visited : forall v, In v (visited self) -> reachable Map origin v;
  inv_roads : forall v m, In v (visited self) -> road Map v m ->
    In m (visited self) \/
    exists r, In r (fringe self) /\ last_city_id r = Ok m;
  inv_origin :
    In origin (visited self) \/
    exists r, In r (fringe self) /\ last_city_id r = Ok origin
}.

(** ** Reading the trace *)

(** Events that [add_routes_for_neighbours] may log: a skipped neighbour, or
    the addition of one of the [allowed] routes. *)
Definition expansion_event (allowed : list Route) (e : event) : Prop :=
  match e with
  | NeighbourSkipped _ => True
  | RouteAdded r => In r allowed
  | _ => False
  end.

(** The event records the addition to the fringe of a route that ends at
    [k]. *)
Definition adds_route_to (k : string) (e : event) : Prop :=
  match e with
  | RouteAdded r => last_city_id r = Ok k
  | _ => False
  end.

(** The keys that the events mark visited. *)
Fixpoint marked (evs : list event) : list string :=
  match evs with
  | [] => []
  | AddedToVisited k :: evs' => k :: marked evs'
  | _ :: evs' => marked evs'
  end.

(** No event of [evs] adds a route to a key of [vis], nor to a key that an
    earlier event of [evs] has marked visited. *)
Fixpoint excludes (vis : list string) (evs : list event) : Prop :=
  match evs with
  | [] => True
  | AddedToVisited k :: evs' => excludes (k :: vis) evs'
  | RouteAdded r :: evs' =>
      (forall k, In k vis -> last_city_id r <> Ok k) /\ excludes vis evs'
  | _ :: evs' => excludes vis evs'
  end.

(** The trace of the engine extends [start] by events that respect the
    exclusion, and what they mark visited is in [visited]. *)
Definition trace_inv (start : list event) (self : GPSGreedyBestFirst) : Prop :=
  exists evs,
    trace self = start ++ evs /\
    excludes [] evs /\
    incl (marked evs) (visited self).

(** ** Paths of the map *)

(** The distance of two keys as a number; 0 where the lookup raises. *)
Definition distance (Map : list City) (a b : string) : R :=
  match calc_cartesian_distance Map a b with
  | Ok d => d
  | Raise _ => 0
  end.

(** The sum of the distances between consecutive keys. *)
Fixpoint path_cost (Map : list City) (ks : list string) : R :=
  match ks with
  | a :: ((b :: _) as rest) => distance Map a b + path_cost Map rest
  | _ => 0
  end.

(** Consecutive keys are joined by a road. *)
Fixpoint chain (Map : list City) (ks : list string) : Prop :=
  match ks with
  | a :: ((b :: _) as rest) => road Map a b /\ chain Map rest
  | _ => True
  end.

(** A route of a search from [origin] towards [destination], as the search
    builds them: a chain of roads from the origin without a repeated city,
    whose cost is the length of the chain and whose estimate is the distance
    from its last city to the destination. *)
Record sound_route (Map : list City) (origin destination : string)
    (r : Route) : Prop := {
  sound_start : hd_error (cities_ids r) = Some origin;
  sound_chain : chain Map (cities_ids r);
  sound_keys : Forall (fun k => In k (keys Map)) (cities_ids r);
  sound_nodup : NoDup (cities_ids r);
  sound_cost : cost r = path_cost Map (cities_ids r);
  sound_estimate : exists k,
    last_city_id r = Ok k /\ evaluation r = distance Map destination k
}.

(** A map with a neighbour key, ["Z"], that names no city. *)
Definition danglingA : City := mkCity "A" 0 0 ["B"; "Z"; "C"].
Definition danglingC : City := mkCity "C" 0 5 [].
Definition DanglingMap : list City :=
  [ danglingA; mkCity "B" 3 4 []; danglingC ].

(** Every route of the fringe is sound, and its cities before the last one
    are in the visited list. *)
Definition sound_fringe (Map : list City) (origin destination : string)
    (self : GPSGreedyBestFirst) : Prop :=
  forall r, In r (fringe self) ->
    sound_route Map origin destination r /\
    forall init k, cities_ids r = init ++ [k] -> incl init (visited self).

(** Every route of the fringe ends at a city of the map. *)
Definition keyed_fringe (Map : list City) (self : GPSGreedyBestFirst) : Prop :=
  forall r, In r (fringe self) ->
    exists k, last_city_id r = Ok k /\ In k (keys Map).

(** ** A search measured against a path of the map *)

(** Every route of the fringe ends at a city of the map and carries as
    estimate the distance from that city to [destination]. *)
Definition estimated_fringe (Map : list City) (destination : string)
    (self : GPSGreedyBestFirst) : Prop :=
  forall r, In r (fringe self) ->
    exists k, last_city_id r = Ok k /\ In k (keys Map) /\
              evaluation r = distance Map destination k.

(** The search is on the path [P]: a route of the fringe ends at a city [p]
    of [P] and costs no more than [P] up to [p], and no city of [P] after
    [p] is visited. *)
Definition on_path (Map : list City) (P : list string)
    (self : GPSGreedyBestFirst) : Prop :=
  exists front p back r,
    P = front ++ p :: back /\
    In r (fringe self) /\
    last_city_id r = Ok p /\
    cost r <= path_cost Map (front ++ [p]) /\
    forall k, In k back -> ~ In k (visited self).

Record path_inv (Map : list City) (destination : string) (P : list string)
    (self : GPSGreedyBestFirst) : Prop := {
  pi_estimated : estimated_fringe Map destination self;
  pi_descending : descending (fringe self);
  pi_on_path : on_path Map P self
}.

(** * Properties *)

(** Settles the comparison on which [insert_route] waits. *)
Ltac compare_heuristics :=
  match goal with
  | |- context [Rlt_dec ?a ?b] =>
      destruct (Rlt_dec a b) as [?Hlt|?Hge];
      [ try (exfalso; unfold heuristic in *; simpl in *; lra)
      | try (exfalso; unfold heuristic in *; simpl in *; lra) ]
  end.


(** ** Lookups *)

Lemma find_key_None (Map : list City) (key : string) :
  find (fun city => String.eqb (id city) key) Map = None <-> ~ In key (keys Map).
Proof.
  induction Map as [|c m IH]; simpl.
  - tauto.
  - destruct (String.eqb_spec (id c) key) as [E|E].
    + split; [discriminate | tauto].
    + rewrite IH. tauto.
Qed.

Lemma find_key_Some (Map : list City) (key : string) (city : City) :
  find (fun c => String.eqb (id c) key) Map = Some city ->
  In city Map /\ id city = key.
Proof.
  intros H. apply find_some in H. destruct H as [H1 H2].
  split; [assumption | now apply String.eqb_eq].
Qed.

Lemma find_key_NoDup (Map : list City) (city : City) :
  NoDup (keys Map) -> In city Map ->
  find (fun c => String.eqb (id c) (id city)) Map = Some city.
Proof.
  induction Map as [|c m IH]; simpl; intros ND HIn.
  - contradiction.
  - inversion ND as [|x l Hnotin ND']; subst.
    destruct HIn as [->|HIn].
    + now rewrite String.eqb_refl.
    + destruct (String.eqb_spec (id c) (id city)) as [E|E].
      * exfalso. apply Hnotin. rewrite E. now apply in_map.
      * now apply IH.
Qed.

Lemma Map_getitem_raise (Map : list City) (key : string) :
  is_raise (Map_getitem Map key) = true <-> ~ In key (keys Map).
Proof.
  unfold Map_getitem. rewrite <- find_key_None.
  destruct (find _ Map); simpl; split; congruence.
Qed.

(** C9. [get_neighbours] is total (its result is a list, there is no
    exception path): for a key that names no city it returns the empty list,
    and for a city of a map with unique keys it returns that city's
    neighbour list. *)
Theorem get_neighbours_lenient (Map : list City) :
  (forall key, ~ In key (keys Map) -> get_neighbours Map key = []) /\
  (forall city, NoDup (keys Map) -> In city Map ->
     get_neighbours Map (id city) = neighbours city) /\
  (forall key, In key (keys Map) ->
     exists city, In city Map /\ id city = key /\
                  get_neighbours Map key = neighbours city).
Proof.
  unfold get_neighbours. repeat split.
  - intros key H. apply find_key_None in H. now rewrite H.
  - intros city ND HIn. now rewrite find_key_NoDup.
  - intros key HIn.
    destruct (find (fun c => String.eqb (id c) key) Map) as [c|] eqn:E.
    + apply find_key_Some in E. destruct E. now exists c.
    + apply find_key_None in E. contradiction.
Qed.

(** C10. [calc_cartesian_distance] raises exactly when one of the two keys
    names no city of the map; when both name a city (unique keys) the result
    is the Euclidean distance of their coordinates. *)
Theorem calc_cartesian_distance_strict (Map : list City) :
  (forall id_a id_b,
     is_raise (calc_cartesian_distance Map id_a id_b) = true <->
     (~ In id_a (keys Map) \/ ~ In id_b (keys Map))) /\
  (forall cityA cityB, NoDup (keys Map) -> In cityA Map -> In cityB Map ->
     calc_cartesian_distance Map (id cityA) (id cityB) =
     Ok (sqrt ((latitude cityA - latitude cityB) ^ 2
               + (longitude cityA - longitude cityB) ^ 2))).
Proof.
  split.
  - intros a b. unfold calc_cartesian_distance.
    rewrite <- (Map_getitem_raise Map a), <- (Map_getitem_raise Map b).
    destruct (Map_getitem Map a), (Map_getitem Map b); simpl;
      intuition congruence.
  - intros cityA cityB ND HA HB. unfold calc_cartesian_distance, Map_getitem.
    now rewrite (find_key_NoDup Map cityA ND HA), (find_key_NoDup Map cityB ND HB).
Qed.

(** ** The fringe *)

Lemma pop_last_app {A : Type} (l : list A) (x : A) :
  pop_last (l ++ [x]) = Some (l, x).
Proof.
  induction l as [|y l IH]; simpl.
  - reflexivity.
  - now rewrite IH.
Qed.

Lemma pop_last_Some {A : Type} (l rest : list A) (x : A) :
  pop_last l = Some (rest, x) -> l = rest ++ [x].
Proof.
  revert rest; induction l as [|y l IH]; simpl; intros rest H.
  - discriminate.
  - destruct (pop_last l) as [[i z]|] eqn:E.
    + injection H as <- <-. simpl. f_equal. now apply IH.
    + injection H as <- <-. destruct l as [|w l]; [reflexivity|].
      simpl in E. destruct (pop_last l) as [[? ?]|]; discriminate.
Qed.

Lemma pop_last_None {A : Type} (l : list A) : pop_last l = None -> l = [].
Proof.
  destruct l as [|x l]; simpl; [reflexivity|].
  destruct (pop_last l) as [[? ?]|]; discriminate.
Qed.

Lemma last_item_app {A : Type} (l : list A) (x : A) :
  last_item (l ++ [x]) = Ok x.
Proof.
  induction l as [|y l IH]; simpl.
  - reflexivity.
  - destruct (l ++ [x]) eqn:E; [now destruct l | assumption].
Qed.

(** C1 (as the code has it).  [add_route] leaves [visited] alone and puts
    the new route immediately before the first route of the fringe whose
    heuristic is strictly below the new route's; with no such route the new
    route goes to the end. *)
Theorem add_route_before_first_lower (self : GPSGreedyBestFirst)
    (route : Route) :
  visited (add_route self route) = visited self /\
  exists pre post,
    fringe self = pre ++ post /\
    fringe (add_route self route) = pre ++ route :: post /\
    Forall (fun r => ~ heuristic r < heuristic route) pre /\
    match post with
    | [] => True
    | r :: _ => heuristic r < heuristic route
    end.
Proof.
  split; [reflexivity|]. destruct self as [f vis tr]. simpl. clear vis tr.
  induction f as [|c rest IH]; simpl.
  - exists [], []. repeat split; constructor.
  - destruct (Rlt_dec (heuristic c) (heuristic route)) as [Hlt|Hge].
    + exists [], (c :: rest). repeat split; [constructor | assumption].
    + destruct IH as (pre & post & E1 & E2 & F & Hp).
      exists (c :: pre), post. simpl. rewrite <- E1, E2.
      repeat split; [constructor; assumption | assumption].
Qed.

(** The scripted frontier of the specification: scores 5, 3, 8, 3 added in
    that order. *)
Lemma fringe_of_scripted :
  fringe_of [scored "a" 5; scored "b" 3; scored "c" 8; scored "d" 3]
  = [scored "c" 8; scored "a" 5; scored "b" 3; scored "d" 3].
Proof.
  unfold fringe_of. simpl.
  repeat (compare_heuristics; simpl). reflexivity.
Qed.

(** C1, as stated, fails: with a route of score 5 in the fringe, a new route
    of score 3 is put behind it by [add_route], where the stated rule (before
    the first route of strictly greater score) puts it in front. *)
Lemma add_route_not_before_first_greater :
  fringe (add_route (mkGPS [scored "a" 5] [] []) (scored "b" 3))
    = [scored "a" 5; scored "b" 3] /\
  insert_before_first_greater [scored "a" 5] (scored "b" 3)
    = [scored "b" 3; scored "a" 5] /\
  fringe (add_route (mkGPS [scored "a" 5] [] []) (scored "b" 3))
    <> insert_before_first_greater [scored "a" 5] (scored "b" 3).
Proof.
  assert (E1 : fringe (add_route (mkGPS [scored "a" 5] [] []) (scored "b" 3))
               = [scored "a" 5; scored "b" 3]).
  { simpl. destruct (Rlt_dec _ _) as [H|H]; [|reflexivity].
    unfold heuristic, scored in H; simpl in H. lra. }
  assert (E2 : insert_before_first_greater [scored "a" 5] (scored "b" 3)
               = [scored "b" 3; scored "a" 5]).
  { simpl. destruct (Rlt_dec _ _) as [H|H]; [reflexivity|].
    unfold heuristic, scored in H; simpl in H. lra. }
  repeat split; [exact E1 | exact E2 |].
  rewrite E1, E2. intros H. injection H as H _. discriminate H.
Qed.

Lemma insert_route_In (fringe : list Route) (route r : Route) :
  In r (insert_route fringe route) <-> r = route \/ In r fringe.
Proof.
  induction fringe as [|c rest IH]; simpl.
  - intuition congruence.
  - destruct (Rlt_dec _ _); simpl; [|rewrite IH]; intuition congruence.
Qed.

Lemma insert_route_descending (fringe : list Route) (route : Route) :
  descending fringe -> descending (insert_route fringe route).
Proof.
  induction fringe as [|c rest IH]; simpl.
  - intros _. split; [constructor | exact I].
  - intros [Hc Hrest].
    destruct (Rlt_dec (heuristic c) (heuristic route)) as [Hlt|Hge]; simpl.
    + repeat split; try assumption. constructor; [lra|].
      eapply Forall_impl; [|exact Hc]. simpl. intros; lra.
    + split; [|now apply IH].
      rewrite Forall_forall in *. intros r Hr.
      apply insert_route_In in Hr. destruct Hr as [->|Hr]; [lra | now apply Hc].
Qed.

Lemma descending_app (l1 l2 : list Route) :
  descending (l1 ++ l2) <->
  descending l1 /\ descending l2 /\
  (forall a b, In a l1 -> In b l2 -> heuristic b <= heuristic a).
Proof.
  induction l1 as [|x l1 IH]; simpl.
  - intuition.
  - rewrite IH, Forall_app, !Forall_forall. split.
    + intros [[H1 H2] (H3 & H4 & H5)]. repeat split; try assumption.
      intros a b [<-|Ha] Hb; eauto.
    + intros ([H1 H2] & H3 & H4). repeat split; eauto.
Qed.

Lemma fold_insert_descending (routes fringe : list Route) :
  descending fringe -> descending (fold_left insert_route routes fringe).
Proof.
  revert fringe; induction routes as [|r routes IH]; simpl; intros f Hf.
  - assumption.
  - apply IH. now apply insert_route_descending.
Qed.

Lemma fold_insert_In (routes fringe : list Route) (r : Route) :
  In r (fold_left insert_route routes fringe) <-> In r fringe \/ In r routes.
Proof.
  revert fringe; induction routes as [|x routes IH]; simpl; intros f.
  - tauto.
  - rewrite IH, insert_route_In. intuition.
Qed.

(** A route not above any route of the fringe goes to the tail. *)
Lemma insert_route_tail (fringe : list Route) (route : Route) :
  Forall (fun r => heuristic route <= heuristic r) fringe ->
  insert_route fringe route = fringe ++ [route].
Proof.
  induction fringe as [|c rest IH]; simpl; intros H.
  - reflexivity.
  - inversion H; subst.
    destruct (Rlt_dec _ _); [lra|]. now rewrite IH.
Qed.

(** A route strictly above the tail route is inserted in front of it. *)
Lemma insert_route_keeps_tail (fringe : list Route) (r route : Route) :
  heuristic r < heuristic route ->
  insert_route (fringe ++ [r]) route = insert_route fringe route ++ [r].
Proof.
  intros Hlt. induction fringe as [|c rest IH]; simpl.
  - destruct (Rlt_dec _ _); [reflexivity | contradiction].
  - destruct (Rlt_dec _ _); [reflexivity|]. now rewrite IH.
Qed.

Lemma fold_insert_keeps_tail (newer fringe : list Route) (r : Route) :
  Forall (fun r' => heuristic r < heuristic r') newer ->
  fold_left insert_route newer (fringe ++ [r])
  = fold_left insert_route newer fringe ++ [r].
Proof.
  revert fringe; induction newer as [|x newer IH]; simpl; intros f H.
  - reflexivity.
  - inversion H; subst. rewrite insert_route_keeps_tail by assumption.
    now apply IH.
Qed.

(** The tail of the fringe built from [older ++ r :: newer] is [r] when no
    older route is below [r] and every newer route is strictly above it. *)
Lemma fringe_of_tail (older newer : list Route) (r : Route) :
  Forall (fun r' => heuristic r <= heuristic r') older ->
  Forall (fun r' => heuristic r < heuristic r') newer ->
  fringe_of (older ++ r :: newer) = fringe_of (older ++ newer) ++ [r].
Proof.
  intros Ho Hn. unfold fringe_of. rewrite !fold_left_app. simpl.
  rewrite insert_route_tail.
  - now apply fold_insert_keeps_tail.
  - rewrite Forall_forall in *. intros x Hx.
    apply fold_insert_In in Hx. destruct Hx as [[]|Hx]. now apply Ho.
Qed.

(** ** Expanding a route *)

Lemma expansion_event_mono (l1 l2 : list Route) (e : event) :
  incl l1 l2 -> expansion_event l1 e -> expansion_event l2 e.
Proof. destruct e; simpl; auto. Qed.

(** What the neighbour loop does to the engine. *)
Lemma add_routes_loop_effect (Map : list City) (route : Route)
    (last_id : string) (destination : City) (ids : list string) :
  forall self res self',
    add_routes_loop Map self route last_id destination ids = (res, self') ->
    visited self' = visited self /\
    fringe self' =
      fold_left insert_route
        (expansion Map (visited self) route last_id destination ids)
        (fringe self) /\
    exists evs,
      trace self' = trace self ++ evs /\
      Forall (expansion_event
                (expansion Map (visited self) route last_id destination ids))
             evs.
Proof.
  induction ids as [|n ids IH]; simpl; intros self res self' H.
  - injection H as _ <-. repeat split. exists []. split; [now rewrite app_nil_r | constructor].
  - destruct (mem n (visited self)) eqn:Hm.
    + apply IH in H. simpl in H. destruct H as (Hv & Hf & evs & Ht & He).
      repeat split; try assumption.
      exists (NeighbourSkipped n :: evs). split.
      * rewrite Ht, <- app_assoc. reflexivity.
      * constructor; [exact I | assumption].
    + destruct (calc_cartesian_distance Map last_id n) as [d1|e1].
      * destruct (calc_cartesian_distance Map (id destination) n) as [d2|e2].
        -- apply IH in H. simpl in H. destruct H as (Hv & Hf & evs & Ht & He).
           repeat split; try assumption.
           exists (RouteAdded (mkRoute (cities_ids route ++ [n]) (d1 + cost route) d2)
                     :: evs). split.
           ++ rewrite Ht, <- app_assoc. reflexivity.
           ++ constructor; [now left|].
              eapply Forall_impl; [|exact He].
              intros e. apply expansion_event_mono. intros x Hx. now right.
        -- injection H as _ <-. repeat split.
           exists []. split; [now rewrite app_nil_r | constructor].
      * injection H as _ <-. repeat split.
        exists []. split; [now rewrite app_nil_r | constructor].
Qed.

(** Every route of an expansion ends in an unvisited neighbour that names a
    city, and extends the expanded route by that neighbour. *)
Lemma expansion_routes (Map : list City) (vis : list string) (route : Route)
    (last_id : string) (destination : City) (ids : list string) :
  Forall (fun r =>
            exists n d1 d2,
              In n ids /\ mem n vis = false /\
              calc_cartesian_distance Map last_id n = Ok d1 /\
              calc_cartesian_distance Map (id destination) n = Ok d2 /\
              r = mkRoute (cities_ids route ++ [n]) (d1 + cost route) d2)
         (expansion Map vis route last_id destination ids).
Proof.
  induction ids as [|n ids IH]; simpl.
  - constructor.
  - assert (IH' : Forall (fun r =>
            exists n0 d1 d2,
              (n = n0 \/ In n0 ids) /\ mem n0 vis = false /\
              calc_cartesian_distance Map last_id n0 = Ok d1 /\
              calc_cartesian_distance Map (id destination) n0 = Ok d2 /\
              r = mkRoute (cities_ids route ++ [n0]) (d1 + cost route) d2)
         (expansion Map vis route last_id destination ids)).
    { eapply Forall_impl; [|exact IH]. simpl.
      intros r (n0 & d1 & d2 & H1 & H2). exists n0, d1, d2. tauto. }
    destruct (mem n vis) eqn:Hm; [assumption|].
    destruct (calc_cartesian_distance Map last_id n) as [d1|] eqn:E1;
      [|constructor].
    destruct (calc_cartesian_distance Map (id destination) n) as [d2|] eqn:E2;
      [|constructor].
    constructor; [|assumption].
    exists n, d1, d2. repeat split; auto.
Qed.

Lemma expansion_length (Map : list City) (vis : list string) (route : Route)
    (last_id : string) (destination : City) (ids : list string) :
  (List.length (expansion Map vis route last_id destination ids)
   <= List.length ids)%nat.
Proof.
  induction ids as [|n ids IH]; simpl; [lia|].
  destruct (mem n vis); [lia|].
  destruct (calc_cartesian_distance Map last_id n); [|simpl; lia].
  destruct (calc_cartesian_distance Map (id destination) n); simpl; lia.
Qed.

Lemma add_routes_for_neighbours_effect (Map : list City)
    (self : GPSGreedyBestFirst) (route : Route) (destination : City)
    (res : result unit) (self' : GPSGreedyBestFirst) :
  add_routes_for_neighbours Map self route destination = (res, self') ->
  visited self' = visited self /\
  exists new,
    fringe self' = fold_left insert_route new (fringe self) /\
    (forall last_id, last_city_id route = Ok last_id ->
       new = expansion Map (visited self) route last_id destination
               (get_neighbours Map last_id)) /\
    (last_city_id route = Raise IndexError -> new = []) /\
    exists evs,
      trace self' = trace self ++ evs /\ Forall (expansion_event new) evs.
Proof.
  unfold add_routes_for_neighbours.
  destruct (last_city_id route) as [k|e] eqn:El; intros H.
  - apply add_routes_loop_effect in H. destruct H as (Hv & Hf & evs & Ht & He).
    split; [assumption|]. eexists. split; [exact Hf|].
    split; [intros ? [= <-]; reflexivity|]. split; [discriminate|].
    now exists evs.
  - injection H as _ <-. split; [reflexivity|]. exists []. repeat split.
    + discriminate.
    + exists []. split; [now rewrite app_nil_r | constructor].
Qed.

(** ** One pass of the loop *)

(** The three ways through the body of the loop, for the route [curr] at the
    tail of the fringe: its key list is empty (IndexError); it ends at the
    destination (returned); or its last city is marked visited and expanded,
    after which the loop goes on or a distance lookup has raised. *)
Lemma loop_body_inv (Map : list City) (self : GPSGreedyBestFirst)
    (destination : City)
    (rest : list Route) (curr : Route) :
  pop_last (fringe self) = Some (rest, curr) ->
  (last_city_id curr = Raise IndexError /\
   loop_body Map self destination =
     Returned (Raise IndexError)
       (mkGPS rest (visited self) (trace self ++ [Analysing curr])))
  \/
  (last_city_id curr = Ok (id destination) /\
   loop_body Map self destination =
     Returned (Ok (Some curr))
       (mkGPS rest (visited self)
              ((trace self ++ [Analysing curr]) ++ [RouteFound curr])))
  \/
  (exists k self',
     last_city_id curr = Ok k /\ k <> id destination /\
     (loop_body Map self destination = Continue self' \/
      exists e, loop_body Map self destination = Returned (Raise e) self') /\
     visited self' = visited self ++ [k] /\
     fringe self' =
       fold_left insert_route
         (expansion Map (visited self ++ [k]) curr k destination
                    (get_neighbours Map k)) rest /\
     (exists evs,
        trace self' =
          ((trace self ++ [Analysing curr]) ++ [AddedToVisited k]) ++ evs /\
        Forall (expansion_event
                  (expansion Map (visited self ++ [k]) curr k destination
                             (get_neighbours Map k))) evs) /\
     exists res,
       add_routes_loop Map
         (mkGPS rest (visited self ++ [k])
                ((trace self ++ [Analysing curr]) ++ [AddedToVisited k]))
         curr k destination (get_neighbours Map k) = (res, self') /\
       loop_body Map self destination =
         match res with
         | Ok _ => Continue self'
         | Raise e => Returned (Raise e) self'
         end).
Proof.
  intros Hpop. unfold loop_body, next_route. rewrite Hpop.
  destruct (last_city_id curr) as [k|e] eqn:El.
  - destruct (String.eqb_spec k (id destination)) as [E|E].
    + right; left. subst k. split; reflexivity.
    + right; right.
      destruct (add_routes_for_neighbours Map _ curr destination)
        as [res self'] eqn:Ea.
      exists k, self'. split; [reflexivity|]. split; [assumption|].
      split; [destruct res; [left | right; eexists]; reflexivity|].
      pose proof Ea as Ea'.
      apply add_routes_for_neighbours_effect in Ea. simpl in Ea.
      destruct Ea as (Hv & new & Hf & Hnew & _ & evs & Ht & He).
      specialize (Hnew k El). subst new.
      split; [assumption|]. split; [assumption|].
      split; [now exists evs|].
      exists res. unfold add_routes_for_neighbours in Ea'. rewrite El in Ea'.
      split; [exact Ea'|]. now destruct res.
  - left. assert (e = IndexError) as ->.
    { unfold last_city_id in El. clear -El.
      induction (cities_ids curr) as [|x l IH]; simpl in El.
      - congruence.
      - destruct l; [discriminate | auto]. }
    split; reflexivity.
Qed.

Lemma fringe_nonempty_pop (f : list Route) :
  f <> [] -> exists rest curr, pop_last f = Some (rest, curr).
Proof.
  intros H. destruct (pop_last f) as [[rest curr]|] eqn:E.
  - now exists rest, curr.
  - apply pop_last_None in E. contradiction.
Qed.

Lemma loop_body_descending (Map : list City) (self : GPSGreedyBestFirst)
    (destination : City) :
  descending (fringe self) ->
  match loop_body Map self destination with
  | Returned _ self' => descending (fringe self')
  | Continue self' => descending (fringe self')
  end.
Proof.
  intros Hd. destruct (pop_last (fringe self)) as [[rest curr]|] eqn:Hpop.
  - assert (Hrest : descending rest).
    { apply pop_last_Some in Hpop. rewrite Hpop in Hd.
      now apply descending_app in Hd. }
    destruct (loop_body_inv Map self destination rest curr Hpop)
      as [[_ ->]|[[_ ->]|(k & self' & _ & _ & [->|[e ->]] & _ & Hf & _)]];
      simpl; try assumption; rewrite Hf; now apply fold_insert_descending.
  - unfold loop_body, next_route. now rewrite Hpop.
Qed.

Lemma search_loop_descending (Map : list City) (fuel : nat) :
  forall self origin destination res self',
    descending (fringe self) ->
    search_loop Map fuel self origin destination = Some (res, self') ->
    descending (fringe self').
Proof.
  induction fuel as [|fuel IH]; intros self o d res self' Hd H; simpl in H.
  - destruct (fringe self) eqn:Ef; [|discriminate].
    injection H as _ <-. simpl. now rewrite Ef.
  - destruct (fringe self) as [|r0 f0] eqn:Ef.
    { injection H as _ <-. simpl. now rewrite Ef. }
    rewrite <- Ef in Hd.
    pose proof (loop_body_descending Map self d Hd) as Hb.
    destruct (loop_body Map self d) as [res1 self1|self1].
    + now injection H as _ <-.
    + eapply IH; eassumption.
Qed.

(** C3. The fringe is kept in non-increasing order of heuristic by
    [add_route], by [next_route] and through a whole [search]; the route
    removed by [next_route] from such a fringe has a heuristic that is least
    among the routes of the fringe; and the route removed from the fringe
    built by a run of additions is the latest added among those of least
    heuristic, what is left being the fringe built from the other
    additions. *)
Theorem fringe_descending_pop_least :
  descending (fringe init) /\
  (forall self route,
     descending (fringe self) -> descending (fringe (add_route self route))) /\
  (forall self r self',
     descending (fringe self) -> next_route self = (Ok r, self') ->
     descending (fringe self') /\
     Forall (fun r' => heuristic r <= heuristic r') (fringe self)) /\
  (forall Map fuel self origin destination res self',
     descending (fringe self) ->
     search Map fuel self origin destination = Some (res, self') ->
     descending (fringe self')) /\
  (forall older r newer vis tr,
     Forall (fun r' => heuristic r <= heuristic r') older ->
     Forall (fun r' => heuristic r < heuristic r') newer ->
     descending (fringe_of (older ++ r :: newer)) /\
     next_route (mkGPS (fringe_of (older ++ r :: newer)) vis tr) =
       (Ok r, mkGPS (fringe_of (older ++ newer)) vis tr)).
Proof.
  split; [exact I|]. split; [|split; [|split]].
  - intros self route. apply insert_route_descending.
  - intros self r self' H H0. unfold next_route in H0.
    destruct (pop_last (fringe self)) as [[rest x]|] eqn:E; [|discriminate].
    injection H0 as <- <-. simpl.
    apply pop_last_Some in E. rewrite E in *.
    apply descending_app in H. destruct H as (H1 & _ & H).
    split; [assumption|].
    apply Forall_app. split.
    + apply Forall_forall. intros a Ha. apply H; simpl; auto.
    + constructor; [lra | constructor].
  - intros Map fuel self o d res self' Hd H. unfold search in H.
    destruct (calc_cartesian_distance Map (id o) (id d)).
    + eapply search_loop_descending; [|exact H].
      simpl. now apply insert_route_descending.
    + now injection H as _ <-.
  - intros older r newer vis tr Ho Hn. split.
    + apply fold_insert_descending. exact I.
    + rewrite fringe_of_tail by assumption.
      unfold next_route. simpl. now rewrite pop_last_app.
Qed.

Lemma fringe_descending_pop_least_witness :
  descending (fringe (add_route (mkGPS [scored "a" 5] [] []) (scored "b" 3))) /\
  next_route
    (mkGPS (fringe_of [scored "a" 5; scored "b" 3; scored "c" 8; scored "d" 3])
           [] []) =
  (Ok (scored "d" 3),
   mkGPS (fringe_of [scored "a" 5; scored "b" 3; scored "c" 8]) [] []).
Proof.
  destruct fringe_descending_pop_least as (_ & Hadd & _ & _ & Hpop).
  split.
  - apply Hadd. simpl. split; [constructor | exact I].
  - apply (Hpop [scored "a" 5; scored "b" 3; scored "c" 8] (scored "d" 3) []).
    + repeat constructor; unfold heuristic; simpl; lra.
    + constructor.
Defined.

(** ** The loop as a whole *)

(** A property kept by every pass that goes on holds in the engine state
    from which the loop leaves: with an empty fringe (nothing found), or
    through the pass that returns or raises. *)
Lemma search_loop_invariant (Inv : GPSGreedyBestFirst -> Prop) (Map : list City)
    (origin destination : City) :
  (forall self self',
     Inv self -> loop_body Map self destination = Continue self' -> Inv self') ->
  forall fuel self res self',
    Inv self ->
    search_loop Map fuel self origin destination = Some (res, self') ->
    exists s,
      Inv s /\
      ((fringe s = [] /\ res = Ok None /\
        self' = emit (NoRouteFound (id origin) (id destination)) s) \/
       (fringe s <> [] /\ loop_body Map s destination = Returned res self')).
Proof.
  intros Hstep fuel. induction fuel as [|fuel IH]; intros self res self' HI H;
    simpl in H.
  - destruct (fringe self) eqn:Ef; [|discriminate].
    injection H as <- <-. exists self. split; [assumption|]. now left.
  - destruct (fringe self) as [|r0 f0] eqn:Ef.
    { injection H as <- <-. exists self. split; [assumption|]. now left. }
    destruct (loop_body Map self destination) as [res1 self1|self1] eqn:Eb.
    + injection H as <- <-. exists self. split; [assumption|]. right.
      split; [congruence | assumption].
    + eapply IH; [|exact H]. eapply Hstep; eassumption.
Qed.

(** More fuel does not change the outcome of a loop that has ended. *)
Lemma search_loop_more_fuel (Map : list City) (origin destination : City)
    (fuel : nat) :
  forall fuel' self out,
    (fuel <= fuel')%nat ->
    search_loop Map fuel self origin destination = Some out ->
    search_loop Map fuel' self origin destination = Some out.
Proof.
  induction fuel as [|fuel IH]; intros fuel' self out Hle H; simpl in H.
  - destruct (fringe self) eqn:Ef; [|discriminate].
    destruct fuel'; simpl; now rewrite Ef.
  - destruct fuel' as [|fuel']; [lia|]. simpl.
    destruct (fringe self); [assumption|].
    destruct (loop_body Map self destination); [assumption|].
    apply IH; [lia | assumption].
Qed.

Lemma Map_getitem_In (Map : list City) (key : string) :
  In key (keys Map) ->
  exists city, Map_getitem Map key = Ok city /\ In city Map /\ id city = key.
Proof.
  intros H. unfold Map_getitem.
  destruct (find (fun c => String.eqb (id c) key) Map) as [c|] eqn:E.
  - apply find_key_Some in E. destruct E. now exists c.
  - apply find_key_None in E. contradiction.
Qed.

Lemma calc_cartesian_distance_In (Map : list City) (a b : string) :
  In a (keys Map) -> In b (keys Map) ->
  exists d, calc_cartesian_distance Map a b = Ok d.
Proof.
  intros Ha Hb. unfold calc_cartesian_distance.
  destruct (Map_getitem_In Map a Ha) as (ca & -> & _).
  destruct (Map_getitem_In Map b Hb) as (cb & -> & _).
  eexists; reflexivity.
Qed.

Lemma calc_cartesian_distance_same (Map : list City) (a : string) (d : R) :
  calc_cartesian_distance Map a a = Ok d -> d = 0.
Proof.
  unfold calc_cartesian_distance.
  destruct (Map_getitem Map a) as [ca|]; [|discriminate].
  intros H. injection H as <-.
  transitivity (sqrt 0); [f_equal; ring | apply sqrt_0].
Qed.

(** C5. On a fresh engine, a search whose origin and destination carry the
    same key of the map returns in the first pass of the loop: the route
    returned is the initial one, with key list [[k]], cost 0 and estimate 0,
    it is the first route popped, and nothing has been marked visited. *)
Theorem search_same_city (Map : list City) (origin destination : City)
    (fuel : nat) :
  In (id origin) (keys Map) ->
  id origin = id destination ->
  exists route self',
    search Map (S fuel) init origin destination = Some (Ok (Some route), self') /\
    cities_ids route = [id origin] /\
    cost route = 0 /\
    evaluation route = 0 /\
    fringe self' = [] /\
    visited self' = [] /\
    trace self' = [Starting (id origin) (id destination); RouteAdded route;
                   Analysing route; RouteFound route].
Proof.
  intros Hin Heq. unfold search. rewrite <- Heq.
  destruct (calc_cartesian_distance_In Map _ _ Hin Hin) as [d Hd].
  rewrite Hd. pose proof (calc_cartesian_distance_same _ _ _ Hd) as ->.
  exists (mkRoute [id origin] 0 0). eexists.
  simpl. unfold loop_body. simpl. rewrite <- Heq, String.eqb_refl.
  repeat split.
Qed.

Lemma search_same_city_witness :
  exists route self',
    search GoiasMap 1 init
           Goiania Goiania
      = Some (Ok (Some route), self') /\
    cities_ids route = ["Goiania"] /\ cost route = 0.
Proof.
  destruct (search_same_city GoiasMap Goiania Goiania 0%nat)
    as (route & self' & H1 & H2 & H3 & _).
  - simpl. auto.
  - reflexivity.
  - exists route, self'. repeat split; assumption.
Defined.

(** ** Termination *)

Lemma route_bound_pos (D k : nat) : (1 <= route_bound D k)%nat.
Proof. destruct k; simpl; lia. Qed.

Lemma route_bound_mono (D k k' : nat) :
  (k <= k')%nat -> (route_bound D k <= route_bound D k')%nat.
Proof.
  assert (Hstep : forall j, (route_bound D j <= route_bound D (S j))%nat).
  { induction j as [|j IH]; [simpl; lia|].
    change (route_bound D (S (S j))) with (D * route_bound D (S j) + 1)%nat.
    change (route_bound D (S j)) with (D * route_bound D j + 1)%nat in IH |- * at 1.
    apply Nat.add_le_mono_r, Nat.mul_le_mono_l. exact IH. }
  intros H. induction H as [|k' H IH]; [lia|].
  etransitivity; [exact IH | apply Hstep].
Qed.

Lemma filter_length_le {A : Type} (f g : A -> bool) (l : list A) :
  (forall x, In x l -> f x = true -> g x = true) ->
  (List.length (filter f l) <= List.length (filter g l))%nat.
Proof.
  induction l as [|x l IH]; simpl; intros H; [lia|].
  assert (IH' := IH (fun y Hy => H y (or_intror Hy))).
  destruct (f x) eqn:Ef.
  - rewrite (H x (or_introl eq_refl) Ef). simpl. lia.
  - destruct (g x); simpl; lia.
Qed.

Lemma filter_length_lt {A : Type} (f g : A -> bool) (l : list A) (a : A) :
  (forall x, In x l -> f x = true -> g x = true) ->
  In a l -> f a = false -> g a = true ->
  (List.length (filter f l) < List.length (filter g l))%nat.
Proof.
  induction l as [|x l IH]; simpl; intros H Ha Hf Hg; [contradiction|].
  assert (Hl : forall y, In y l -> f y = true -> g y = true)
    by (intros y Hy; apply H; now right).
  destruct Ha as [->|Ha].
  - rewrite Hf, Hg. simpl. pose proof (filter_length_le f g l Hl). lia.
  - specialize (IH Hl Ha Hf Hg).
    destruct (f x) eqn:Ef.
    + rewrite (H x (or_introl eq_refl) Ef). simpl. lia.
    + destruct (g x); simpl; lia.
Qed.

Lemma mem_In (key : string) (l : list string) : mem key l = true <-> In key l.
Proof.
  unfold mem. rewrite existsb_exists. split.
  - intros (x & Hx & E). apply String.eqb_eq in E. now subst.
  - intros H. exists key. split; [assumption | apply String.eqb_refl].
Qed.

Lemma mem_false (key : string) (l : list string) :
  mem key l = false <-> ~ In key l.
Proof.
  rewrite <- mem_In. destruct (mem key l); split; congruence.
Qed.

(** Marking more cities visited does not raise a rank. *)
Lemma rank_mono (Map : list City) (vis vis' : list string) (r : Route) :
  incl vis vis' -> (rank Map vis' r <= rank Map vis r)%nat.
Proof.
  intros H. apply filter_length_le. intros c _. unfold open_for.
  rewrite !orb_true_iff, !negb_true_iff, !mem_false. intros [Hc|Hc]; auto.
Qed.

(** A new route to an unvisited key ranks strictly below the route it
    extends, when that route ends in a city of the map just marked visited. *)
Lemma rank_child (Map : list City) (vis : list string) (curr child : Route)
    (k n : string) :
  last_city_id curr = Ok k -> In k (keys Map) ->
  last_city_id child = Ok n -> mem n (vis ++ [k]) = false ->
  (rank Map (vis ++ [k]) child < rank Map vis curr)%nat.
Proof.
  intros Hk Hin Hn Hm. unfold keys in Hin. apply in_map_iff in Hin.
  destruct Hin as (c & Hc & HcM). unfold rank.
  apply filter_length_lt with (a := c); try assumption.
  - intros x _. unfold open_for. rewrite Hk, Hn.
    rewrite !orb_true_iff, !negb_true_iff, !mem_false, !String.eqb_eq.
    rewrite mem_false in Hm. intros [H|H].
    + left. intros H'. apply H. apply in_or_app. now left.
    + left. intros H'. apply Hm. rewrite <- H. apply in_or_app. now left.
  - unfold open_for. rewrite Hn, Hc.
    apply orb_false_iff. split.
    + apply negb_false_iff, mem_In, in_or_app. right. now left.
    + apply String.eqb_neq. intros ->. rewrite mem_false in Hm.
      apply Hm, in_or_app. right. now left.
  - unfold open_for. rewrite Hk, Hc, String.eqb_refl. apply orb_true_r.
Qed.

Lemma get_neighbours_degree (Map : list City) (key : string) :
  (List.length (get_neighbours Map key) <= max_degree Map)%nat.
Proof.
  unfold get_neighbours.
  induction Map as [|c m IH]; simpl; [lia|].
  destruct (String.eqb (id c) key); [lia|].
  etransitivity; [exact IH | lia].
Qed.

Lemma get_neighbours_unknown (Map : list City) (key : string) :
  ~ In key (keys Map) -> get_neighbours Map key = [].
Proof.
  intros H. unfold get_neighbours. apply find_key_None in H. now rewrite H.
Qed.

Lemma list_sum_insert_route (w : Route -> nat) (f : list Route) (r : Route) :
  list_sum (map w (insert_route f r)) = (w r + list_sum (map w f))%nat.
Proof.
  induction f as [|c rest IH]; simpl; [reflexivity|].
  destruct (Rlt_dec _ _); simpl; [reflexivity|]. rewrite IH. lia.
Qed.

Lemma list_sum_fold_insert (w : Route -> nat) (new f : list Route) :
  list_sum (map w (fold_left insert_route new f))
  = (list_sum (map w f) + list_sum (map w new))%nat.
Proof.
  revert f; induction new as [|r new IH]; simpl; intros f; [lia|].
  rewrite IH, list_sum_insert_route. lia.
Qed.

Lemma list_sum_bounded (w : Route -> nat) (b : nat) (l : list Route) :
  Forall (fun r => (w r <= b)%nat) l ->
  (list_sum (map w l) <= List.length l * b)%nat.
Proof.
  induction 1 as [|r l Hr _ IH]; simpl; lia.
Qed.

Lemma list_sum_le (w w' : Route -> nat) (l : list Route) :
  (forall r, (w' r <= w r)%nat) ->
  (list_sum (map w' l) <= list_sum (map w l))%nat.
Proof.
  intros H. induction l as [|r l IH]; simpl; [lia|]. specialize (H r). lia.
Qed.

Lemma expansion_weight (Map : list City) (vis : list string) (curr : Route)
    (k : string) (destination : City) (ids : list string) :
  last_city_id curr = Ok k -> In k (keys Map) ->
  Forall (fun child =>
            (weight Map (vis ++ [k]) child
             <= route_bound (max_degree Map) (rank Map vis curr - 1))%nat)
         (expansion Map (vis ++ [k]) curr k destination ids).
Proof.
  intros Hk Hin.
  eapply Forall_impl; [|apply expansion_routes]. simpl.
  intros child (n & d1 & d2 & _ & Hm & _ & _ & ->).
  unfold weight. apply route_bound_mono.
  assert (rank Map (vis ++ [k])
            (mkRoute (cities_ids curr ++ [n]) (d1 + cost curr) d2)
          < rank Map vis curr)%nat; [|lia].
  apply rank_child with (k := k) (n := n); try assumption.
  unfold last_city_id. simpl. apply last_item_app.
Qed.

(** A pass after which the loop goes on lowers the bound. *)
Lemma loop_body_decreases (Map : list City) (self self' : GPSGreedyBestFirst)
    (destination : City) :
  loop_body Map self destination = Continue self' ->
  (passes_bound Map self' < passes_bound Map self)%nat.
Proof.
  intros Hb.
  destruct (pop_last (fringe self)) as [[rest curr]|] eqn:Hpop.
  2:{ unfold loop_body, next_route in Hb. rewrite Hpop in Hb. discriminate. }
  destruct (loop_body_inv Map self destination rest curr Hpop)
    as [[_ E]|[[_ E]|(k & s & Hk & _ & Hc & Hv & Hf & _)]];
    try (rewrite E in Hb; discriminate).
  assert (s = self') as ->.
  { destruct Hc as [E|[e E]]; rewrite E in Hb; congruence. }
  clear Hc Hb. apply pop_last_Some in Hpop.
  unfold passes_bound. rewrite Hf, Hv, Hpop, list_sum_fold_insert.
  rewrite map_app, list_sum_app. simpl.
  set (vis := visited self).
  assert (Hrest : (list_sum (map (weight Map (vis ++ [k])) rest)
                   <= list_sum (map (weight Map vis) rest))%nat).
  { apply list_sum_le. intros r. unfold weight. apply route_bound_mono.
    apply rank_mono. intros x Hx. apply in_or_app. now left. }
  pose proof (route_bound_pos (max_degree Map) (rank Map vis curr)) as Hpos.
  fold (weight Map vis curr) in Hpos.
  destruct (in_dec string_dec k (keys Map)) as [Hin|Hnin].
  - pose proof (expansion_weight Map vis curr k destination
                  (get_neighbours Map k) Hk Hin) as Hw.
    apply list_sum_bounded in Hw.
    pose proof (expansion_length Map (vis ++ [k]) curr k destination
                  (get_neighbours Map k)) as Hlen.
    pose proof (get_neighbours_degree Map k) as Hdeg.
    set (new := expansion Map (vis ++ [k]) curr k destination
                          (get_neighbours Map k)) in *.
    destruct new as [|child new'] eqn:Enew.
    + simpl. lia.
    + assert (Hrank : (1 <= rank Map vis curr)%nat).
      { pose proof (expansion_routes Map (vis ++ [k]) curr k destination
                      (get_neighbours Map k)) as Hr.
        fold new in Hr. rewrite Enew in Hr. inversion Hr as [|? ? Hc _]; subst.
        destruct Hc as (n & d1 & d2 & _ & Hm & _ & _ & ->).
        assert (rank Map (vis ++ [k])
                  (mkRoute (cities_ids curr ++ [n]) (d1 + cost curr) d2)
                < rank Map vis curr)%nat; [|lia].
        apply rank_child with (k := k) (n := n); try assumption.
        unfold last_city_id. simpl. apply last_item_app. }
      assert (Hw' : (weight Map vis curr
                     = max_degree Map
                       * route_bound (max_degree Map) (rank Map vis curr - 1)
                       + 1)%nat).
      { unfold weight. destruct (rank Map vis curr) as [|u]; [lia|].
        simpl. now rewrite Nat.sub_0_r. }
      rewrite Hw'. simpl in Hlen, Hw |- *.
      set (B := route_bound (max_degree Map) (rank Map vis curr - 1)) in *.
      assert ((S (List.length new') * B <= max_degree Map * B)%nat)
        by (apply Nat.mul_le_mono_r; lia).
      simpl in H. lia.
  - rewrite (get_neighbours_unknown Map k Hnin). simpl. lia.
Qed.

(** With fuel for [passes_bound] passes the loop ends. *)
Lemma search_loop_terminates (Map : list City) (origin destination : City)
    (fuel : nat) :
  forall self,
    (passes_bound Map self <= fuel)%nat ->
    exists out, search_loop Map fuel self origin destination = Some out.
Proof.
  induction fuel as [|fuel IH]; intros self Hle; simpl.
  - destruct (fringe self) as [|r f] eqn:Ef; [eexists; reflexivity|].
    exfalso. unfold passes_bound in Hle. rewrite Ef in Hle. simpl in Hle.
    pose proof (route_bound_pos (max_degree Map) (rank Map (visited self) r)).
    unfold weight in Hle. lia.
  - destruct (fringe self) as [|r f] eqn:Ef; [eexists; reflexivity|].
    destruct (loop_body Map self destination) as [res s|s] eqn:Eb.
    + eexists; reflexivity.
    + apply IH. apply loop_body_decreases in Eb. lia.
Qed.

Lemma rank_le_length (Map : list City) (vis : list string) (r : Route) :
  (rank Map vis r <= List.length Map)%nat.
Proof.
  unfold rank. rewrite <- (filter_length (open_for vis r) Map). lia.
Qed.

(** C4 (as the code has it).  Every call of [search] ends, on any engine
    state: with enough passes allowed the loop returns or raises.  On a
    fresh engine [route_bound (max_degree Map) (length Map)] passes are
    enough. *)
Theorem search_terminates (Map : list City) (origin destination : City) :
  (forall self, exists fuel out,
     search Map fuel self origin destination = Some out /\
     forall fuel', (fuel <= fuel')%nat ->
       search Map fuel' self origin destination = Some out) /\
  (exists out,
     search Map (route_bound (max_degree Map) (List.length Map)) init
            origin destination = Some out).
Proof.
  split.
  - intros self. unfold search.
    destruct (calc_cartesian_distance Map (id origin) (id destination))
      as [d|e].
    + set (s := add_route _ _).
      destruct (search_loop_terminates Map origin destination
                  (passes_bound Map s) s (le_n _)) as [out Hout].
      exists (passes_bound Map s), out. split; [assumption|].
      intros fuel' Hle. eapply search_loop_more_fuel; eassumption.
    + exists 0%nat. eexists. split; [reflexivity|]. intros; reflexivity.
  - unfold search.
    destruct (calc_cartesian_distance Map (id origin) (id destination))
      as [d|e]; [|eexists; reflexivity].
    apply search_loop_terminates. unfold passes_bound. simpl.
    rewrite Nat.add_0_r. unfold weight. apply route_bound_mono.
    apply rank_le_length.
Qed.

(** ** Running the loop on a given map *)

Lemma search_loop_S (Map : list City) (fuel : nat) (self : GPSGreedyBestFirst)
    (origin destination : City) :
  search_loop Map (S fuel) self origin destination =
  match fringe self with
  | [] => Some (Ok None, emit (NoRouteFound (id origin) (id destination)) self)
  | _ :: _ =>
      match loop_body Map self destination with
      | Returned res self' => Some (res, self')
      | Continue self' => search_loop Map fuel self' origin destination
      end
  end.
Proof. reflexivity. Qed.

(** The distance of two cities of a given map, as a number. *)
Ltac dist_value :=
  unfold calc_cartesian_distance; simpl; f_equal; apply sqrt_lem_1; lra.

(** One pass of the loop on a concrete engine; [rw] rewrites the distance
    lookups of the pass with their values. *)
Ltac one_pass rw :=
  rewrite search_loop_S;
  cbn -[calc_cartesian_distance search_loop];
  rw;
  cbn -[calc_cartesian_distance search_loop];
  unfold add_route, emit;
  cbn -[calc_cartesian_distance search_loop];
  repeat (compare_heuristics; cbn -[calc_cartesian_distance search_loop]).

Lemma detour_distances :
  calc_cartesian_distance DetourMap "A" "D" = Ok 1 /\
  calc_cartesian_distance DetourMap "A" "B1" = Ok 1 /\
  calc_cartesian_distance DetourMap "D" "B1" = Ok 2 /\
  calc_cartesian_distance DetourMap "A" "B2" = Ok 2 /\
  calc_cartesian_distance DetourMap "D" "B2" = Ok 3 /\
  calc_cartesian_distance DetourMap "A" "C" = Ok 9 /\
  calc_cartesian_distance DetourMap "D" "C" = Ok 10 /\
  calc_cartesian_distance DetourMap "B1" "C" = Ok 8 /\
  calc_cartesian_distance DetourMap "B2" "C" = Ok 7.
Proof. repeat split; dist_value. Qed.

(** The search from ["A"] to ["D"] on [DetourMap], fresh engine: after five
    passes (popping A, B1, B2 and twice a route to C) the direct route to C
    is still in the fringe. *)
Lemma detour_five_passes :
  exists st,
    fringe st = [mkRoute ["A"; "C"] (9 + 0) 10] /\
    visited st = ["A"; "B1"; "B2"; "C"; "C"] /\
    forall fuel,
      search DetourMap (5 + fuel) init detourA detourD =
      search_loop DetourMap fuel st detourA detourD.
Proof.
  destruct detour_distances as (E1 & E2 & E3 & E4 & E5 & E6 & E7 & E8 & E9).
  eexists. split; [|split]; [| |intros fuel].
  3:{ unfold search. simpl id. rewrite E1. simpl plus.
      do 5 (one_pass ltac:(rewrite ?E1, ?E2, ?E3, ?E4, ?E5, ?E6, ?E7, ?E8, ?E9)).
      reflexivity. }
  - reflexivity.
  - reflexivity.
Qed.

Lemma detour_run :
  search DetourMap 5 init detourA detourD = None /\
  exists st,
    search DetourMap 6 init detourA detourD = Some (Ok None, st) /\
    visited st = ["A"; "B1"; "B2"; "C"; "C"; "C"].
Proof.
  destruct detour_five_passes as (st & Hf & Hv & Hrun). split.
  - change 5%nat with (5 + 0)%nat. rewrite Hrun. simpl. now rewrite Hf.
  - change 6%nat with (5 + 1)%nat. rewrite Hrun.
    destruct st as [f v t]. simpl in Hf, Hv. subst.
    eexists. split; reflexivity.
Qed.

(** C4, as stated, fails: on the five cities of [DetourMap] the search from
    ["A"] to ["D"] is not over after five passes of the loop; it returns in
    the sixth. *)
Lemma search_passes_exceed_cities :
  List.length DetourMap = 5%nat /\
  search DetourMap (List.length DetourMap) init detourA detourD = None /\
  exists st, search DetourMap 6 init detourA detourD = Some (Ok None, st).
Proof.
  destruct detour_run as (H5 & st & H6 & _).
  split; [reflexivity|]. split; [exact H5|]. now exists st.
Qed.

(** ** Searching for an unreachable destination *)

Lemma get_neighbours_closed (Map : list City) (a b : string) :
  closed_map Map -> road Map a b -> In b (keys Map).
Proof.
  intros Hc Hr. unfold road, get_neighbours in Hr.
  destruct (find (fun c => String.eqb (id c) a) Map) as [c|] eqn:E.
  - apply find_key_Some in E. destruct E as [Hin _]. eapply Hc; eassumption.
  - contradiction.
Qed.

Lemma reachable_in_keys (Map : list City) (origin k : string) :
  closed_map Map -> In origin (keys Map) -> reachable Map origin k ->
  In k (keys Map).
Proof.
  intros Hc Ho Hr. induction Hr as [|a b _ _ Hab]; [assumption|].
  eapply get_neighbours_closed; eassumption.
Qed.

(** With every key at hand naming a city, the neighbour loop does not
    raise. *)
Lemma add_routes_loop_ok (Map : list City) (route : Route) (last_id : string)
    (destination : City) (ids : list string) :
  In last_id (keys Map) -> In (id destination) (keys Map) ->
  (forall n, In n ids -> In n (keys Map)) ->
  forall self, exists self',
    add_routes_loop Map self route last_id destination ids = (Ok tt, self').
Proof.
  intros Hl Hd. induction ids as [|n ids IH]; intros Hids self; simpl.
  - eexists; reflexivity.
  - assert (Hids' : forall m, In m ids -> In m (keys Map))
      by (intros m Hm; apply Hids; now right).
    destruct (mem n (visited self)); [apply IH; assumption|].
    destruct (calc_cartesian_distance_In Map last_id n Hl (Hids n (or_introl eq_refl)))
      as [d1 ->].
    destruct (calc_cartesian_distance_In Map (id destination) n Hd
                (Hids n (or_introl eq_refl))) as [d2 ->].
    apply IH; assumption.
Qed.

(** ... and every unvisited neighbour gets its route. *)
Lemma expansion_complete (Map : list City) (vis : list string) (route : Route)
    (last_id : string) (destination : City) (ids : list string) :
  In last_id (keys Map) -> In (id destination) (keys Map) ->
  (forall n, In n ids -> In n (keys Map)) ->
  forall n, In n ids -> mem n vis = false ->
    exists r, In r (expansion Map vis route last_id destination ids) /\
              last_city_id r = Ok n.
Proof.
  intros Hl Hd. induction ids as [|m ids IH]; intros Hids n Hn Hm; simpl.
  - contradiction.
  - assert (Hids' : forall x, In x ids -> In x (keys Map))
      by (intros x Hx; apply Hids; now right).
    destruct (calc_cartesian_distance_In Map last_id m Hl (Hids m (or_introl eq_refl)))
      as [d1 E1].
    destruct (calc_cartesian_distance_In Map (id destination) m Hd
                (Hids m (or_introl eq_refl))) as [d2 E2].
    rewrite E1, E2.
    destruct Hn as [->|Hn].
    + rewrite Hm. eexists. split; [now left|].
      unfold last_city_id. simpl. apply last_item_app.
    + destruct (IH Hids' n Hn Hm) as (r & Hr & Hlast).
      exists r. split; [|assumption].
      destruct (mem m vis); [assumption | now right].
Qed.

Lemma search_inv_start (Map : list City) (origin : string) (d : R)
    (tr : list event) :
  search_inv Map origin (mkGPS [mkRoute [origin] 0 d] [] tr).
Proof.
  constructor; simpl.
  - intros r [<-|[]]. exists origin. split; [reflexivity | constructor].
  - contradiction.
  - contradiction.
  - right. eexists. split; [now left | reflexivity].
Qed.

(** While the destination is out of reach, a pass neither returns nor
    raises, and keeps [search_inv]. *)
Lemma loop_body_unreachable (Map : list City) (origin : string)
    (destination : City) (self : GPSGreedyBestFirst) :
  closed_map Map -> In origin (keys Map) -> In (id destination) (keys Map) ->
  ~ reachable Map origin (id destination) ->
  search_inv Map origin self -> fringe self <> [] ->
  exists self',
    loop_body Map self destination = Continue self' /\
    search_inv Map origin self'.
Proof.
  intros Hc Ho Hd Hun [Hfr Hvis Hroads Horig] Hne.
  destruct (fringe_nonempty_pop _ Hne) as (rest & curr & Hpop).
  pose proof (pop_last_Some _ _ _ Hpop) as Hf.
  assert (Hcurr : In curr (fringe self))
    by (rewrite Hf; apply in_or_app; right; now left).
  destruct (Hfr curr Hcurr) as (k0 & Hk0 & Hreach).
  destruct (loop_body_inv Map self destination rest curr Hpop)
    as [[E _]|[[E _]|(k & self' & Hk & Hkd & _ & Hv & Hf' & _ & res & Hloop & Hb)]].
  - congruence.
  - exfalso. apply Hun. congruence.
  - assert (k0 = k) by congruence. subst k0.
    pose proof (reachable_in_keys Map origin k Hc Ho Hreach) as Hkin.
    assert (Hids : forall n, In n (get_neighbours Map k) -> In n (keys Map)).
    { intros n Hn. eapply get_neighbours_closed; [exact Hc | exact Hn]. }
    destruct (add_routes_loop_ok Map curr k destination (get_neighbours Map k)
                Hkin Hd Hids
                (mkGPS rest (visited self ++ [k])
                   ((trace self ++ [Analysing curr]) ++ [AddedToVisited k])))
      as [s Hs].
    rewrite Hs in Hloop. injection Hloop as <- <-.
    exists s. split; [exact Hb|].
    assert (Hrest : forall r, In r rest -> In r (fringe s)).
    { intros r Hr. rewrite Hf'. apply fold_insert_In. now left. }
    constructor.
    + intros r Hr. rewrite Hf' in Hr. apply fold_insert_In in Hr.
      destruct Hr as [Hr|Hr].
      * apply Hfr. rewrite Hf. apply in_or_app. now left.
      * pose proof (expansion_routes Map (visited self ++ [k]) curr k
                      destination (get_neighbours Map k)) as Hex.
        rewrite Forall_forall in Hex.
        destruct (Hex r Hr) as (n & d1 & d2 & Hn & _ & _ & _ & ->).
        exists n. split.
        -- unfold last_city_id. simpl. apply last_item_app.
        -- eapply reach_road; [exact Hreach | exact Hn].
    + intros v Hvin. rewrite Hv in Hvin. apply in_app_or in Hvin.
      destruct Hvin as [Hvin|[<-|[]]]; [now apply Hvis | assumption].
    + intros v m Hvin Hvm. rewrite Hv in Hvin |- *. apply in_app_or in Hvin.
      destruct Hvin as [Hvin|[<-|[]]].
      * destruct (Hroads v m Hvin Hvm) as [Hm|(r & Hr & Hlast)].
        -- left. apply in_or_app. now left.
        -- rewrite Hf in Hr. apply in_app_or in Hr.
           destruct Hr as [Hr|[<-|[]]].
           ++ right. exists r. split; [now apply Hrest | assumption].
           ++ left. apply in_or_app. right. left. congruence.
      * destruct (mem m (visited self ++ [k])) eqn:Hm.
        -- left. now apply mem_In.
        -- right.
           destruct (expansion_complete Map (visited self ++ [k]) curr k
                       destination (get_neighbours Map k) Hkin Hd Hids m Hvm Hm)
             as (r & Hr & Hlast).
           exists r. split; [|assumption].
           rewrite Hf'. apply fold_insert_In. now right.
    + rewrite Hv. destruct Horig as [Hin|(r & Hr & Hlast)].
      * left. apply in_or_app. now left.
      * rewrite Hf in Hr. apply in_app_or in Hr.
        destruct Hr as [Hr|[<-|[]]].
        -- right. exists r. split; [now apply Hrest | assumption].
        -- left. apply in_or_app. right. left. congruence.
Qed.

(** C7 (as the code has it).  A loop that finds the fringe empty returns
    [None], it does not raise.  On a fresh engine and a map whose neighbour
    keys all name cities, a search for a destination that no chain of
    neighbour links reaches from the origin ends with [None], with an empty
    fringe, and the cities in [visited] are then exactly the ones reachable
    from the origin (each at least once). *)
Theorem search_unreachable_not_found (Map : list City)
    (origin destination : City) :
  (forall fuel self,
     fringe self = [] ->
     search_loop Map fuel self origin destination =
       Some (Ok None,
             emit (NoRouteFound (id origin) (id destination)) self)) /\
  (closed_map Map ->
   In (id origin) (keys Map) -> In (id destination) (keys Map) ->
   ~ reachable Map (id origin) (id destination) ->
   exists fuel self',
     search Map fuel init origin destination = Some (Ok None, self') /\
     fringe self' = [] /\
     forall k, reachable Map (id origin) k <-> In k (visited self')).
Proof.
  split.
  - intros fuel self Hf. destruct fuel; simpl; now rewrite Hf.
  - intros Hc Ho Hd Hun. unfold search.
    destruct (calc_cartesian_distance_In Map _ _ Ho Hd) as [dist ->].
    set (s0 := add_route _ _).
    destruct (search_loop_terminates Map origin destination
                (passes_bound Map s0) s0 (le_n _)) as [[res self'] Hout].
    exists (passes_bound Map s0), self'.
    assert (Hstep : forall self self1,
               search_inv Map (id origin) self ->
               loop_body Map self destination = Continue self1 ->
               search_inv Map (id origin) self1).
    { intros self self1 HI Hb.
      assert (Hne : fringe self <> []).
      { intros E. unfold loop_body, next_route in Hb. rewrite E in Hb.
        discriminate. }
      destruct (loop_body_unreachable Map (id origin) destination self
                  Hc Ho Hd Hun HI Hne) as (s & Hs & HI').
      congruence. }
    destruct (search_loop_invariant (search_inv Map (id origin)) Map origin
                destination Hstep _ s0 res self'
                (search_inv_start Map (id origin) dist _) Hout)
      as (s & HI & [(Hf & -> & ->)|(Hne & Hb)]).
    + split; [exact Hout|]. split; [exact Hf|].
      destruct HI as [_ Hvis Hroads Horig]. simpl.
      intros k. split; [|apply Hvis].
      intros Hr. induction Hr as [|a b _ IH Hab].
      * destruct Horig as [H|(r & Hr & _)]; [assumption|].
        rewrite Hf in Hr. contradiction.
      * destruct (Hroads a b IH Hab) as [H|(r & Hr & _)]; [assumption|].
        rewrite Hf in Hr. contradiction.
    + exfalso.
      destruct (loop_body_unreachable Map (id origin) destination s
                  Hc Ho Hd Hun HI Hne) as (s1 & Hs1 & _).
      congruence.
Qed.

Lemma detour_closed : closed_map DetourMap.
Proof.
  intros city n Hc Hn. simpl in Hc.
  repeat (destruct Hc as [<-|Hc]; [simpl in Hn; simpl; tauto|]).
  contradiction.
Qed.

Lemma detour_D_unreachable : ~ reachable DetourMap "A" "D".
Proof.
  assert (H : forall k, reachable DetourMap "A" k ->
                        In k ["A"; "B1"; "B2"; "C"]).
  { intros k Hr. induction Hr as [|a b _ IH Hab]; [simpl; tauto|].
    unfold road in Hab. simpl in IH.
    repeat (destruct IH as [<-|IH]; [simpl in Hab; simpl; tauto|]).
    contradiction. }
  intros Hr. apply H in Hr. simpl in Hr.
  repeat (destruct Hr as [Hr|Hr]; [discriminate|]). contradiction.
Qed.

Lemma detour_C_reachable : reachable DetourMap "A" "C".
Proof.
  apply reach_road with (a := "A"); [constructor|].
  unfold road. simpl. tauto.
Qed.

Lemma search_unreachable_not_found_witness :
  exists fuel self',
    search DetourMap fuel init detourA detourD = Some (Ok None, self') /\
    In "C" (visited self').
Proof.
  destruct (search_unreachable_not_found DetourMap detourA detourD)
    as [_ H].
  destruct (H detour_closed) as (fuel & self' & Hs & _ & Hv).
  - simpl. tauto.
  - simpl. tauto.
  - exact detour_D_unreachable.
  - exists fuel, self'. split; [exact Hs|].
    apply Hv. exact detour_C_reachable.
Defined.

(** C7, as stated, fails in its last part: in the search from ["A"] to the
    unreachable ["D"] on [DetourMap], which returns [None], the reachable
    city ["C"] is in [visited] three times. *)
Lemma visited_holds_city_thrice :
  closed_map DetourMap /\
  ~ reachable DetourMap "A" "D" /\
  reachable DetourMap "A" "C" /\
  exists st,
    search DetourMap 6 init detourA detourD = Some (Ok None, st) /\
    count_occ string_dec (visited st) "C" = 3%nat.
Proof.
  split; [exact detour_closed|]. split; [exact detour_D_unreachable|].
  split; [exact detour_C_reachable|].
  destruct detour_run as (_ & st & H6 & Hv).
  exists st. split; [exact H6|]. rewrite Hv. reflexivity.
Qed.

(** ** No route to a visited city *)

Lemma marked_app (e1 e2 : list event) :
  marked (e1 ++ e2) = marked e1 ++ marked e2.
Proof.
  induction e1 as [|e e1 IH]; simpl; [reflexivity|].
  destruct e; simpl; now rewrite ?IH.
Qed.

Lemma excludes_incl (vis vis' : list string) (evs : list event) :
  incl vis' vis -> excludes vis evs -> excludes vis' evs.
Proof.
  revert vis vis'; induction evs as [|e evs IH]; simpl; intros vis vis' Hi H.
  - exact I.
  - destruct e; try (eapply IH; eassumption).
    + destruct H as [H1 H2]. split; [|eapply IH; eassumption].
      intros k Hk. apply H1. now apply Hi.
    + eapply IH; [|exact H]. intros x [<-|Hx]; [now left | right; now apply Hi].
Qed.

Lemma excludes_app (vis : list string) (e1 e2 : list event) :
  excludes vis (e1 ++ e2) <->
  excludes vis e1 /\ excludes (marked e1 ++ vis) e2.
Proof.
  revert vis; induction e1 as [|e e1 IH]; simpl; intros vis.
  - tauto.
  - destruct e; simpl; rewrite ?IH; try tauto.
    split.
    + intros [H1 H2]. split; [assumption|].
      eapply excludes_incl; [|exact H2].
      intros x Hx. simpl in Hx. apply in_or_app. simpl.
      destruct Hx as [<-|Hx]; [right; now left|].
      apply in_app_or in Hx. destruct Hx; [now left | right; now right].
    + intros [H1 H2]. split; [assumption|].
      eapply excludes_incl; [|exact H2].
      intros x Hx. apply in_app_or in Hx. simpl in Hx. simpl.
      destruct Hx as [Hx|[<-|Hx]]; [right; apply in_or_app; now left
                                   | now left
                                   | right; apply in_or_app; now right].
Qed.

Lemma excludes_Forall (vis : list string) (evs : list event) (k : string) :
  In k vis -> excludes vis evs -> Forall (fun e => ~ adds_route_to k e) evs.
Proof.
  revert vis; induction evs as [|e evs IH]; simpl; intros vis Hk H.
  - constructor.
  - destruct e; simpl in *;
      try (constructor; [tauto | eapply IH; eassumption]).
    + destruct H as [H1 H2]. constructor; [now apply H1 | eapply IH; eassumption].
    + constructor; [tauto|]. eapply IH; [|exact H]. now right.
Qed.

(** The exclusion, read at any event that marks a key visited. *)
Lemma excludes_split (evs before after : list event) (k : string) :
  excludes [] evs -> evs = before ++ AddedToVisited k :: after ->
  Forall (fun e => ~ adds_route_to k e) after.
Proof.
  intros H ->. apply excludes_app in H. destruct H as [_ H]. simpl in H.
  eapply excludes_Forall; [|exact H]. now left.
Qed.

Lemma expansion_events_exclude (new : list Route) (vis : list string)
    (evs : list event) :
  Forall (expansion_event new) evs ->
  (forall r k, In r new -> In k vis -> last_city_id r <> Ok k) ->
  excludes vis evs /\ marked evs = [].
Proof.
  intros He Hnew. induction He as [|e evs He _ [IH1 IH2]]; simpl.
  - split; [exact I | reflexivity].
  - destruct e; simpl in He; try contradiction.
    + split; [|assumption]. split; [|assumption].
      intros k Hk. now apply Hnew.
    + split; assumption.
Qed.

Lemma expansion_unvisited (Map : list City) (vis : list string) (route : Route)
    (last_id : string) (destination : City) (ids : list string) :
  forall r k,
    In r (expansion Map vis route last_id destination ids) ->
    In k vis -> last_city_id r <> Ok k.
Proof.
  intros r k Hr Hk.
  pose proof (expansion_routes Map vis route last_id destination ids) as H.
  rewrite Forall_forall in H.
  destruct (H r Hr) as (n & d1 & d2 & _ & Hm & _ & _ & ->).
  unfold last_city_id. simpl. rewrite last_item_app.
  intros [= ->]. apply mem_false in Hm. contradiction.
Qed.

(** A pass of the loop keeps [trace_inv], however it ends. *)
Lemma loop_body_trace (Map : list City) (start : list event)
    (self : GPSGreedyBestFirst)
    (destination : City) :
  trace_inv start self ->
  match loop_body Map self destination with
  | Returned _ self' => trace_inv start self'
  | Continue self' => trace_inv start self'
  end.
Proof.
  intros (evs & Ht & Hex & Hm).
  destruct (pop_last (fringe self)) as [[rest curr]|] eqn:Hpop.
  2:{ unfold loop_body, next_route. rewrite Hpop. now exists evs. }
  destruct (loop_body_inv Map self destination rest curr Hpop)
    as [[_ ->]|[[_ ->]|(k & self' & _ & _ & Hb & Hv & _ & (evs2 & Ht2 & He2) & _)]].
  - exists (evs ++ [Analysing curr]). simpl. rewrite Ht, <- app_assoc.
    split; [reflexivity|]. split.
    + apply excludes_app. split; [assumption | exact I].
    + rewrite marked_app. simpl. now rewrite app_nil_r.
  - exists (evs ++ [Analysing curr; RouteFound curr]). simpl.
    rewrite Ht, <- !app_assoc. split; [reflexivity|]. split.
    + apply excludes_app. split; [assumption | exact I].
    + rewrite marked_app. simpl. now rewrite app_nil_r.
  - assert (HI : trace_inv start self').
    { destruct (expansion_events_exclude _ (visited self ++ [k]) evs2 He2
                  (expansion_unvisited Map _ curr k destination _))
        as [Hex2 Hm2].
      exists (evs ++ Analysing curr :: AddedToVisited k :: evs2).
      rewrite Ht2, Ht, <- !app_assoc. split; [reflexivity|]. split.
      - apply excludes_app. split; [assumption|]. simpl.
        eapply excludes_incl; [|exact Hex2].
        intros x [<-|Hx]; apply in_or_app; [right; now left|].
        left. apply Hm. apply in_app_or in Hx. destruct Hx as [Hx|[]].
        assumption.
      - rewrite marked_app. simpl. rewrite Hm2, Hv.
        intros x Hx. apply in_app_or in Hx. apply in_or_app.
        destruct Hx as [Hx|[<-|[]]]; [left; now apply Hm | right; now left]. }
    destruct Hb as [->|[e ->]]; exact HI.
Qed.

(** C8. In the events that one call of [search] adds to the trace, after an
    event that marks a key visited no event adds to the fringe a route that
    ends at that key. *)
Theorem visited_exclusion (Map : list City) (fuel : nat)
    (self : GPSGreedyBestFirst) (origin destination : City)
    (res : result (option Route)) (self' : GPSGreedyBestFirst) :
  search Map fuel self origin destination = Some (res, self') ->
  exists evs,
    trace self' = trace self ++ evs /\
    forall before k after,
      evs = before ++ AddedToVisited k :: after ->
      Forall (fun e => ~ adds_route_to k e) after.
Proof.
  intros H.
  assert (HI : trace_inv (trace self) self').
  { unfold search in H.
    destruct (calc_cartesian_distance Map (id origin) (id destination))
      as [dist|e].
    - set (s0 := add_route _ _) in H.
      assert (H0 : trace_inv (trace self) s0).
      { exists [Starting (id origin) (id destination);
                RouteAdded (mkRoute [id origin] 0 dist)].
        simpl. rewrite <- app_assoc. split; [reflexivity|].
        split; [|intros x []]. split; [intros k []|exact I]. }
      destruct (search_loop_invariant (trace_inv (trace self)) Map origin
                  destination) with (fuel := fuel) (self := s0) (res := res)
                  (self' := self')
        as (s & Hs & [(_ & _ & ->)|(_ & Hb)]); try assumption.
      + intros s s1 Hs Hb.
        pose proof (loop_body_trace Map (trace self) s destination Hs) as Hl.
        now rewrite Hb in Hl.
      + destruct Hs as (evs & Ht & Hex & Hm).
        exists (evs ++ [NoRouteFound (id origin) (id destination)]). simpl.
        rewrite Ht, <- app_assoc. split; [reflexivity|]. split.
        * apply excludes_app. split; [assumption | exact I].
        * rewrite marked_app. simpl. now rewrite app_nil_r.
      + pose proof (loop_body_trace Map (trace self) s destination Hs) as Hl.
        now rewrite Hb in Hl.
    - injection H as _ <-. exists [Starting (id origin) (id destination)].
      simpl. split; [reflexivity|]. split; [exact I | intros x []]. }
  destruct HI as (evs & Ht & Hex & _).
  exists evs. split; [assumption|].
  intros before k after E. eapply excludes_split; eassumption.
Qed.

(** ** Searching for a direct neighbour *)

Lemma cauchy_2d (a b c d u v : R) :
  0 <= u -> 0 <= v -> u * u = a * a + b * b -> v * v = c * c + d * d ->
  a * c + b * d <= u * v.
Proof.
  intros Hu Hv Eu Ev.
  destruct (Rle_or_lt (a * c + b * d) (u * v)) as [H|H]; [assumption|].
  exfalso.
  assert (0 <= u * v) by (apply Rmult_le_pos; assumption).
  assert (Hsq : (u * v) * (u * v) < (a * c + b * d) * (a * c + b * d)).
  { apply Rmult_le_0_lt_compat; assumption. }
  assert (E : (u * v) * (u * v) = (a * a + b * b) * (c * c + d * d)).
  { rewrite <- Eu, <- Ev. ring. }
  pose proof (Rle_0_sqr (a * d - b * c)) as Hdet. unfold Rsqr in Hdet.
  rewrite E in Hsq.
  assert (Hid : (a * a + b * b) * (c * c + d * d)
                = (a * c + b * d) * (a * c + b * d)
                  + (a * d - b * c) * (a * d - b * c)) by ring.
  rewrite Hid in Hsq. lra.
Qed.

(** The triangle inequality of the plane. *)
Lemma euclid_triangle (x1 y1 x2 y2 x3 y3 : R) :
  sqrt ((x1 - x3) ^ 2 + (y1 - y3) ^ 2) <=
  sqrt ((x1 - x2) ^ 2 + (y1 - y2) ^ 2) + sqrt ((x2 - x3) ^ 2 + (y2 - y3) ^ 2).
Proof.
  set (a := x1 - x2). set (b := y1 - y2). set (c := x2 - x3). set (d := y2 - y3).
  replace (x1 - x3) with (a + c) by (unfold a, c; ring).
  replace (y1 - y3) with (b + d) by (unfold b, d; ring).
  assert (Hab : 0 <= a ^ 2 + b ^ 2) by nra.
  assert (Hcd : 0 <= c ^ 2 + d ^ 2) by nra.
  pose proof (sqrt_pos (a ^ 2 + b ^ 2)) as Hu.
  pose proof (sqrt_pos (c ^ 2 + d ^ 2)) as Hv.
  pose proof (sqrt_sqrt _ Hab) as Eu.
  pose proof (sqrt_sqrt _ Hcd) as Ev.
  set (u := sqrt (a ^ 2 + b ^ 2)) in *. set (v := sqrt (c ^ 2 + d ^ 2)) in *.
  assert (Hc : a * c + b * d <= u * v).
  { apply (cauchy_2d a b c d u v); try assumption; rewrite ?Eu, ?Ev; ring. }
  rewrite <- (sqrt_square (u + v)) by lra.
  apply sqrt_le_1_alt. nra.
Qed.

(** The cost of the road to a neighbour plus its estimate is at least the
    straight distance from origin to destination. *)
Lemma calc_cartesian_distance_triangle (Map : list City) (a b n : string)
    (d d1 d2 : R) :
  calc_cartesian_distance Map a b = Ok d ->
  calc_cartesian_distance Map a n = Ok d1 ->
  calc_cartesian_distance Map b n = Ok d2 ->
  d <= d1 + d2.
Proof.
  unfold calc_cartesian_distance.
  destruct (Map_getitem Map a) as [ca|]; [|discriminate].
  destruct (Map_getitem Map b) as [cb|]; [|discriminate].
  destruct (Map_getitem Map n) as [cn|]; [|discriminate].
  intros H H1 H2.
  assert (E : d = sqrt ((latitude ca - latitude cb) ^ 2
                        + (longitude ca - longitude cb) ^ 2)) by congruence.
  assert (E1 : d1 = sqrt ((latitude ca - latitude cn) ^ 2
                          + (longitude ca - longitude cn) ^ 2)) by congruence.
  assert (E2 : d2 = sqrt ((latitude cn - latitude cb) ^ 2
                          + (longitude cn - longitude cb) ^ 2)).
  { transitivity (sqrt ((latitude cb - latitude cn) ^ 2
                        + (longitude cb - longitude cn) ^ 2));
      [congruence | f_equal; ring]. }
  rewrite E, E1, E2. apply euclid_triangle.
Qed.

(** Any run of additions has a latest route of least heuristic. *)
Lemma latest_least (routes : list Route) :
  routes <> [] ->
  exists older x newer,
    routes = older ++ x :: newer /\
    Forall (fun r => heuristic x <= heuristic r) older /\
    Forall (fun r => heuristic x < heuristic r) newer.
Proof.
  induction routes as [|r rs IH]; intros Hne; [contradiction|].
  destruct rs as [|r' rs'].
  - exists [], r, []. repeat split; constructor.
  - destruct IH as (older & x & newer & E & Ho & Hn); [discriminate|].
    destruct (Rle_lt_dec (heuristic x) (heuristic r)) as [Hle|Hlt].
    + exists (r :: older), x, newer. rewrite E.
      repeat split; [constructor|]; assumption.
    + exists [], r, (r' :: rs'). rewrite E.
      split; [reflexivity|]. split; [constructor|].
      apply Forall_app. split.
      * eapply Forall_impl; [|exact Ho]. simpl. intros; lra.
      * constructor; [assumption|].
        eapply Forall_impl; [|exact Hn]. simpl. intros; lra.
Qed.

Lemma expansion_app (Map : list City) (vis : list string) (route : Route)
    (last_id : string) (destination : City) (l1 l2 : list string) :
  In last_id (keys Map) -> In (id destination) (keys Map) ->
  (forall n, In n l1 -> In n (keys Map)) ->
  expansion Map vis route last_id destination (l1 ++ l2) =
  expansion Map vis route last_id destination l1
  ++ expansion Map vis route last_id destination l2.
Proof.
  intros Hl Hd. induction l1 as [|n l1 IH]; intros Hk; simpl; [reflexivity|].
  assert (Hk' : forall m, In m l1 -> In m (keys Map))
    by (intros m Hm; apply Hk; now right).
  destruct (mem n vis); [now apply IH|].
  destruct (calc_cartesian_distance_In Map last_id n Hl (Hk n (or_introl eq_refl)))
    as [d1 ->].
  destruct (calc_cartesian_distance_In Map (id destination) n Hd
              (Hk n (or_introl eq_refl))) as [d2 ->].
  simpl. now rewrite IH.
Qed.

(** Where the latest least route of a run is, when the run holds a route
    [b] that no route of the run is below and that no later route ties
    with. *)
Lemma latest_least_is (front back older newer : list Route) (b x : Route) :
  front ++ b :: back = older ++ x :: newer ->
  Forall (fun r => heuristic x <= heuristic r) older ->
  Forall (fun r => heuristic x < heuristic r) newer ->
  (forall r, In r (front ++ b :: back) -> heuristic b <= heuristic r) ->
  (forall r, In r back -> r = b \/ heuristic r <> heuristic b) ->
  x = b.
Proof.
  intros E Ho Hn Hleast Hback.
  rewrite Forall_forall in Ho, Hn.
  assert (Hx : heuristic b <= heuristic x).
  { apply Hleast. rewrite E. apply in_or_app. right. now left. }
  apply app_eq_app in E. destruct E as (l & [[E1 E2]|[E1 E2]]).
  - destruct l as [|y l]; simpl in E2.
    + now injection E2.
    + injection E2 as <- ->. exfalso.
      assert (heuristic x < heuristic b); [|lra].
      apply Hn. apply in_or_app. right. now left.
  - destruct l as [|y l]; simpl in E2.
    + now injection E2.
    + injection E2 as <- ->.
      assert (Hxo : heuristic x <= heuristic b).
      { apply Ho. subst older. apply in_or_app. right. now left. }
      destruct (Hback x) as [H|H]; [apply in_or_app; right; now left | exact H |].
      exfalso. apply H. lra.
Qed.

Lemma calc_cartesian_distance_sym (Map : list City) (a b : string) (d : R) :
  calc_cartesian_distance Map a b = Ok d ->
  calc_cartesian_distance Map b a = Ok d.
Proof.
  unfold calc_cartesian_distance.
  destruct (Map_getitem Map a) as [ca|]; [|discriminate].
  destruct (Map_getitem Map b) as [cb|]; [|discriminate].
  intros H. assert (E : d = sqrt ((latitude ca - latitude cb) ^ 2
                        + (longitude ca - longitude cb) ^ 2)) by congruence.
  rewrite E. do 2 f_equal. ring.
Qed.

(** Two passes of the loop, the second one popping a route that ends at the
    destination. *)
Lemma search_loop_two_passes (Map : list City) (origin destination : City)
    (fuel : nat) (s0 s : GPSGreedyBestFirst) (rest : list Route) (r : Route) :
  fringe s0 <> [] ->
  loop_body Map s0 destination = Continue s ->
  pop_last (fringe s) = Some (rest, r) ->
  last_city_id r = Ok (id destination) ->
  exists self',
    search_loop Map (S (S fuel)) s0 origin destination
      = Some (Ok (Some r), self').
Proof.
  intros Hne Hb1 Hpop Hlast.
  destruct (loop_body_inv Map s destination rest r Hpop)
    as [[E _]|[[_ Hb2]|(k & s2 & Hk & Hkd & _)]];
    [congruence | | congruence].
  eexists. rewrite search_loop_S.
  destruct (fringe s0) as [|r0 f0]; [contradiction|].
  rewrite Hb1, search_loop_S.
  destruct (fringe s) as [|r1 f1]; [discriminate Hpop|].
  rewrite Hb2. reflexivity.
Qed.

(** The first pass of the search for a neighbour of the origin that no later
    neighbour ties with: the origin is expanded, and the route left at the
    tail of the fringe, the latest of least heuristic, is the direct one. *)
Lemma direct_route_is_next (Map : list City) (origin destination : City)
    (before after : list string) (dAB : R) :
  In (id origin) (keys Map) ->
  In (id destination) (keys Map) ->
  id origin <> id destination ->
  get_neighbours Map (id origin) = before ++ id destination :: after ->
  (forall n, In n (get_neighbours Map (id origin)) -> In n (keys Map)) ->
  (forall n d1 d2,
     In n after -> n <> id origin -> n <> id destination ->
     calc_cartesian_distance Map (id origin) n = Ok d1 ->
     calc_cartesian_distance Map (id destination) n = Ok d2 ->
     d1 + d2 <> dAB) ->
  calc_cartesian_distance Map (id origin) (id destination) = Ok dAB ->
  exists s rest,
    loop_body Map
      (add_route (emit (Starting (id origin) (id destination)) init)
                 (mkRoute [id origin] 0 dAB))
      destination = Continue s /\
    pop_last (fringe s)
      = Some (rest, mkRoute [id origin; id destination] (dAB + 0) 0).
Proof.
  intros Ho Hd Hneq Hnb Hkeys Htie HAB.
  destruct (calc_cartesian_distance_In Map _ _ Hd Hd) as [dBB HBB].
  pose proof (calc_cartesian_distance_same _ _ _ HBB) as ->.
  set (ini := mkRoute [id origin] 0 dAB).
  set (direct := mkRoute [id origin; id destination] (dAB + 0) 0).
  set (s0 := add_route _ ini).
  assert (Hpop0 : pop_last (fringe s0) = Some ([], ini)) by reflexivity.
  destruct (loop_body_inv Map s0 destination [] ini Hpop0)
    as [[E _]|[[E _]|(k & s1 & Hk & _ & _ & Hv1 & Hf1 & _ & res & Hloop & Hb1)]];
    [discriminate E | injection E as E; contradiction |].
  injection Hk as <-. simpl in Hv1, Hf1.
  destruct (add_routes_loop_ok Map ini (id origin) destination
              (get_neighbours Map (id origin)) Ho Hd Hkeys
              (mkGPS [] (visited s0 ++ [id origin])
                 ((trace s0 ++ [Analysing ini]) ++ [AddedToVisited (id origin)])))
    as [s Hs].
  rewrite Hs in Hloop. injection Hloop as <- <-.
  (* the routes added by the pass *)
  set (E := expansion Map [id origin] ini (id origin) destination
                      (get_neighbours Map (id origin))) in *.
  assert (Hsplit : E =
            expansion Map [id origin] ini (id origin) destination before
            ++ direct
            :: expansion Map [id origin] ini (id origin) destination after).
  { unfold E. rewrite Hnb.
    rewrite expansion_app; try assumption.
    - f_equal. cbn [expansion].
      assert (Hm : mem (id destination) [id origin] = false).
      { apply mem_false. intros [H|[]]. now apply Hneq. }
      rewrite Hm, HAB, HBB. reflexivity.
    - intros n Hn. apply Hkeys. rewrite Hnb. apply in_or_app. now left. }
  assert (Hchild : forall r, In r E ->
            exists n d1 d2,
              In n (get_neighbours Map (id origin)) /\ n <> id origin /\
              calc_cartesian_distance Map (id origin) n = Ok d1 /\
              calc_cartesian_distance Map (id destination) n = Ok d2 /\
              r = mkRoute ([id origin] ++ [n]) (d1 + 0) d2).
  { intros r Hr.
    pose proof (expansion_routes Map [id origin] ini (id origin) destination
                  (get_neighbours Map (id origin))) as Hex.
    rewrite Forall_forall in Hex.
    destruct (Hex r Hr) as (n & d1 & d2 & Hn & Hm & H1 & H2 & ->).
    exists n, d1, d2. repeat split; try assumption.
    intros ->. apply mem_false in Hm. apply Hm. now left. }
  assert (Hne : E <> [])
    by (rewrite Hsplit; now destruct (expansion _ _ _ _ _ before)).
  destruct (latest_least E Hne) as (older & x & newer & EE & Hold & Hnew).
  assert (Hx : x = direct).
  { apply (latest_least_is _ _ older newer direct x
             (eq_trans (eq_sym Hsplit) EE) Hold Hnew).
    - rewrite <- Hsplit. intros r Hr.
      destruct (Hchild r Hr) as (n & d1 & d2 & _ & _ & H1 & H2 & ->).
      pose proof (calc_cartesian_distance_triangle Map _ _ _ _ _ _ HAB H1 H2).
      unfold heuristic, direct. simpl. lra.
    - intros r Hr.
      assert (HrE : In r E)
        by (rewrite Hsplit; apply in_or_app; right; now right).
      destruct (Hchild r HrE) as (n & d1 & d2 & _ & HnA & H1 & H2 & ->).
      pose proof (expansion_routes Map [id origin] ini (id origin) destination
                    after) as Hex.
      rewrite Forall_forall in Hex.
      destruct (Hex _ Hr) as (n' & d1' & d2' & Hn' & _ & H1' & H2' & Er).
      injection Er as <- _ _.
      destruct (string_dec n (id destination)) as [->|HnB].
      + left. unfold direct. simpl. f_equal; congruence.
      + right. unfold heuristic, direct. simpl.
        pose proof (Htie n d1 d2 Hn' HnA HnB H1 H2). lra. }
  subst x.
  exists s, (fringe_of (older ++ newer)). split; [exact Hb1|].
  rewrite Hf1. change (fold_left insert_route E []) with (fringe_of E).
  rewrite EE, fringe_of_tail by assumption. apply pop_last_app.
Qed.









(** The scenario of the specification: two cities three by four apart. *)
Lemma search_pair_scenario :
  exists self',
    search PairMap 2 init pairG pairH
      = Some (Ok (Some (mkRoute ["G"; "H"] (5 + 0) 0)), self').
Proof.
  assert (E1 : calc_cartesian_distance PairMap "G" "H" = Ok 5) by dist_value.
  assert (E2 : calc_cartesian_distance PairMap "H" "H" = Ok 0) by dist_value.
  eexists. unfold search. simpl id. rewrite E1.
  do 2 (one_pass ltac:(rewrite ?E1, ?E2)). reflexivity.
Qed.

(** The direct route is a property of the table, not of the loop: on
    [CollinearMap], where ["B"] is a neighbour of ["A"] and ["N"] lies on
    the segment between them, the search from ["A"] to ["B"] returns the
    route through ["N"], which ties with the direct route and was added
    after it. *)
Lemma search_returns_tied_detour :
  In "B" (get_neighbours CollinearMap "A") /\
  exists route self',
    search CollinearMap 3 init collinearA collinearB
      = Some (Ok (Some route), self') /\
    cities_ids route = ["A"; "N"; "B"] /\
    cities_ids route <> ["A"; "B"].
Proof.
  split; [simpl; tauto|].
  assert (E1 : calc_cartesian_distance CollinearMap "A" "B" = Ok 2) by dist_value.
  assert (E2 : calc_cartesian_distance CollinearMap "A" "N" = Ok 1) by dist_value.
  assert (E3 : calc_cartesian_distance CollinearMap "B" "B" = Ok 0) by dist_value.
  assert (E4 : calc_cartesian_distance CollinearMap "B" "N" = Ok 1) by dist_value.
  assert (E5 : calc_cartesian_distance CollinearMap "N" "B" = Ok 1) by dist_value.
  exists (mkRoute ["A"; "N"; "B"] (1 + (1 + 0)) 0). eexists.
  split; [|split; [reflexivity | discriminate]].
  unfold search. simpl id. rewrite E1.
  do 3 (one_pass ltac:(rewrite ?E1, ?E2, ?E3, ?E4, ?E5)). reflexivity.
Qed.

(** ** A second search on the same engine *)

(** [search] starts from the [visited] list it is given: what the engine
    holds is never dropped, only extended. *)
Lemma search_loop_visited_prefix (Map : list City) (fuel : nat)
    (origin destination : City) :
  forall self res self',
    search_loop Map fuel self origin destination = Some (res, self') ->
    exists more, visited self' = visited self ++ more.
Proof.
  induction fuel as [|fuel IH]; intros self res self' H; simpl in H.
  - destruct (fringe self); [|discriminate]. injection H as _ <-.
    exists []. simpl. now rewrite app_nil_r.
  - destruct (fringe self) as [|r0 f0] eqn:Ef.
    { injection H as _ <-. exists []. simpl. now rewrite app_nil_r. }
    assert (Hne : fringe self <> []) by congruence.
    destruct (fringe_nonempty_pop _ Hne) as (rest & curr & Hpop).
    destruct (loop_body_inv Map self destination rest curr Hpop)
      as [[_ Hb]|[[_ Hb]|(k & s & _ & _ & Hb & Hv & _)]].
    + rewrite Hb in H. injection H as _ <-. exists []. simpl.
      now rewrite app_nil_r.
    + rewrite Hb in H. injection H as _ <-. exists []. simpl.
      now rewrite app_nil_r.
    + destruct Hb as [Hb|[e Hb]]; rewrite Hb in H.
      * apply IH in H. destruct H as [more Hm].
        exists (k :: more). rewrite Hm, Hv, <- app_assoc. reflexivity.
      * injection H as _ <-. exists [k]. exact Hv.
Qed.

(** With the destination already in [visited] and no route to it in the
    fringe, a pass neither returns nor raises. *)
Lemma loop_body_visited_destination (Map : list City) (destination : City)
    (self : GPSGreedyBestFirst) :
  closed_map Map -> In (id destination) (keys Map) ->
  (forall r, In r (fringe self) ->
     exists k, last_city_id r = Ok k /\ In k (keys Map) /\ k <> id destination) ->
  In (id destination) (visited self) ->
  fringe self <> [] ->
  exists self',
    loop_body Map self destination = Continue self' /\
    (forall r, In r (fringe self') ->
       exists k, last_city_id r = Ok k /\ In k (keys Map) /\ k <> id destination) /\
    In (id destination) (visited self').
Proof.
  intros Hc Hd Hfr Hvis Hne.
  destruct (fringe_nonempty_pop _ Hne) as (rest & curr & Hpop).
  pose proof (pop_last_Some _ _ _ Hpop) as Hf.
  assert (Hcurr : In curr (fringe self))
    by (rewrite Hf; apply in_or_app; right; now left).
  destruct (Hfr curr Hcurr) as (k0 & Hk0 & Hkin & Hk0d).
  destruct (loop_body_inv Map self destination rest curr Hpop)
    as [[E _]|[[E _]|(k & self' & Hk & Hkd & _ & Hv & Hf' & _ & res & Hloop & Hb)]];
    [congruence | congruence |].
  assert (k0 = k) by congruence. subst k0.
  assert (Hids : forall n, In n (get_neighbours Map k) -> In n (keys Map)).
  { intros n Hn. eapply get_neighbours_closed; [exact Hc | exact Hn]. }
  destruct (add_routes_loop_ok Map curr k destination (get_neighbours Map k)
              Hkin Hd Hids
              (mkGPS rest (visited self ++ [k])
                 ((trace self ++ [Analysing curr]) ++ [AddedToVisited k])))
    as [s Hs].
  rewrite Hs in Hloop. injection Hloop as <- <-.
  exists s. split; [exact Hb|]. split.
  - intros r Hr. rewrite Hf' in Hr. apply fold_insert_In in Hr.
    destruct Hr as [Hr|Hr].
    + apply Hfr. rewrite Hf. apply in_or_app. now left.
    + pose proof (expansion_routes Map (visited self ++ [k]) curr k
                    destination (get_neighbours Map k)) as Hex.
      rewrite Forall_forall in Hex.
      destruct (Hex r Hr) as (n & d1 & d2 & Hn & Hm & _ & _ & ->).
      exists n. split; [unfold last_city_id; simpl; apply last_item_app|].
      split; [now apply Hids|].
      intros ->. apply mem_false in Hm. apply Hm. apply in_or_app. now left.
  - rewrite Hv. apply in_or_app. now left.
Qed.

(** An engine with an empty fringe that holds the destination in [visited]
    finds no route to it from another city, whatever the roads. *)
Lemma search_misses_visited_destination (Map : list City)
    (self : GPSGreedyBestFirst)
    (origin destination : City) :
  closed_map Map ->
  In (id origin) (keys Map) -> In (id destination) (keys Map) ->
  id origin <> id destination ->
  fringe self = [] -> In (id destination) (visited self) ->
  exists fuel self',
    search Map fuel self origin destination = Some (Ok None, self').
Proof.
  intros Hc Ho Hd Hneq Hf Hvis. unfold search.
  destruct (calc_cartesian_distance_In Map _ _ Ho Hd) as [dist ->].
  set (s0 := add_route _ _).
  destruct (search_loop_terminates Map origin destination
              (passes_bound Map s0) s0 (le_n _)) as [[res self'] Hout].
  exists (passes_bound Map s0), self'.
  set (Inv := fun s : GPSGreedyBestFirst =>
         (forall r, In r (fringe s) ->
            exists k, last_city_id r = Ok k /\ In k (keys Map) /\
                      k <> id destination) /\
         In (id destination) (visited s)).
  assert (H0 : Inv s0).
  { split; [|exact Hvis]. unfold s0. simpl. rewrite Hf. simpl.
    intros r [<-|[]]. exists (id origin). repeat split; assumption. }
  assert (Hstep : forall s s1, Inv s ->
                    loop_body Map s destination = Continue s1 -> Inv s1).
  { intros s s1 [HI1 HI2] Hb.
    assert (Hne : fringe s <> []).
    { intros E. unfold loop_body, next_route in Hb. rewrite E in Hb.
      discriminate. }
    destruct (loop_body_visited_destination Map destination s Hc Hd HI1 HI2 Hne)
      as (s' & Hs' & HI').
    assert (s' = s1) by congruence. subst s'. exact HI'. }
  destruct (search_loop_invariant Inv Map origin destination Hstep _ s0 res self'
              H0 Hout) as (s & [HI1 HI2] & [(_ & -> & _)|(Hne & Hb)]).
  - exact Hout.
  - exfalso.
    destruct (loop_body_visited_destination Map destination s Hc Hd HI1 HI2 Hne)
      as (s' & Hs' & _).
    congruence.
Qed.

Lemma Goias_closed : closed_map GoiasMap.
Proof.
  intros city n Hc Hn. simpl in Hc.
  repeat (destruct Hc as [<-|Hc];
          [simpl in Hn; simpl;
           repeat (destruct Hn as [<-|Hn]; [tauto|]); contradiction|]).
  contradiction.
Qed.

(** C2 fails on the code.  On the source's map and a fresh engine, the
    search from Formiga to its neighbour Piracanjuba returns the direct
    route and leaves ["Formiga"] in [visited]; the next search on that
    engine, from Piracanjuba to Formiga, starts from that list and returns
    [None], where a fresh engine returns the direct route. *)
Theorem search_keeps_visited :
  exists route self1,
    search GoiasMap 2 init Formiga Piracanjuba
      = Some (Ok (Some route), self1) /\
    cities_ids route = ["Formiga"; "Piracanjuba"] /\
    fringe self1 = [] /\
    visited self1 = ["Formiga"] /\
    (forall fuel res self2,
       search GoiasMap fuel self1 Piracanjuba Formiga = Some (res, self2) ->
       exists more, visited self2 = "Formiga" :: more) /\
    (exists fuel self2,
       search GoiasMap fuel self1 Piracanjuba Formiga = Some (Ok None, self2)) /\
    (exists route' self2,
       search GoiasMap 2 init Piracanjuba Formiga
         = Some (Ok (Some route'), self2) /\
       cities_ids route' = ["Piracanjuba"; "Formiga"]).
Proof.
  assert (HF : In "Formiga" (keys GoiasMap)) by (simpl; tauto).
  assert (HP : In "Piracanjuba" (keys GoiasMap)) by (simpl; tauto).
  destruct (calc_cartesian_distance_In GoiasMap _ _ HF HP) as [d1 E1].
  destruct (calc_cartesian_distance_In GoiasMap _ _ HP HP) as [d2 E2].
  assert (Hrun : exists self1,
             search GoiasMap 2 init Formiga Piracanjuba
               = Some (Ok (Some (mkRoute ["Formiga"; "Piracanjuba"] (d1 + 0) d2)),
                       self1) /\
             fringe self1 = [] /\ visited self1 = ["Formiga"]).
  { eexists. split; [|split].
    - unfold search. simpl id. rewrite E1.
      do 2 (one_pass ltac:(rewrite ?E1, ?E2)). reflexivity.
    - reflexivity.
    - reflexivity. }
  destruct Hrun as (self1 & Hs1 & Hf1 & Hv1).
  exists (mkRoute ["Formiga"; "Piracanjuba"] (d1 + 0) d2), self1.
  split; [exact Hs1|]. split; [reflexivity|]. split; [exact Hf1|].
  split; [exact Hv1|]. split; [|split].
  - intros fuel res self2 H. unfold search in H.
    destruct (calc_cartesian_distance GoiasMap (id Piracanjuba) (id Formiga)).
    + apply search_loop_visited_prefix in H. destruct H as [more Hm].
      simpl in Hm. rewrite Hv1 in Hm. now exists more.
    + injection H as _ <-. exists []. exact Hv1.
  - apply search_misses_visited_destination.
    + exact Goias_closed.
    + exact HP.
    + exact HF.
    + discriminate.
    + exact Hf1.
    + rewrite Hv1. now left.
  - destruct (calc_cartesian_distance_In GoiasMap _ _ HP HF) as [d3 E3].
    destruct (direct_route_is_next GoiasMap Piracanjuba Formiga
                ["BelaVista"; "ProfJamil"; "CaldasNovas"; "Cristianopolis"] []
                d3) as (s & rest & Hb & Hpop).
    + exact HP.
    + exact HF.
    + discriminate.
    + reflexivity.
    + simpl. intros n Hn.
      repeat (destruct Hn as [<-|Hn]; [tauto|]). contradiction.
    + intros n d1' d2' [].
    + exact E3.
    + assert (Hne : fringe (add_route
                              (emit (Starting (id Piracanjuba) (id Formiga)) init)
                              (mkRoute [id Piracanjuba] 0 d3)) <> [])
        by discriminate.
      destruct (search_loop_two_passes GoiasMap Piracanjuba Formiga 0 _ s rest
                  _ Hne Hb Hpop eq_refl) as [self2 Hrun].
      eexists. exists self2. unfold search. simpl id. rewrite E3.
      split; [exact Hrun | reflexivity].
Qed.

(** ** The theorems at given inputs *)

Lemma Goias_keys_NoDup : NoDup (keys GoiasMap).
Proof.
  unfold keys. simpl.
  repeat (constructor; [simpl; intuition discriminate|]). constructor.
Qed.

Lemma get_neighbours_lenient_witness :
  get_neighbours GoiasMap "Atlantis" = [] /\
  get_neighbours GoiasMap (id Formiga) = neighbours Formiga.
Proof.
  destruct (get_neighbours_lenient GoiasMap) as (Hnone & Hsome & _).
  split.
  - apply Hnone. simpl. intuition discriminate.
  - apply Hsome; [exact Goias_keys_NoDup | simpl; tauto].
Defined.

Lemma calc_cartesian_distance_strict_witness :
  is_raise (calc_cartesian_distance GoiasMap "Goiania" "Atlantis") = true /\
  calc_cartesian_distance GoiasMap (id Goiania) (id BelaVista) =
    Ok (sqrt ((latitude Goiania - latitude BelaVista) ^ 2
              + (longitude Goiania - longitude BelaVista) ^ 2)).
Proof.
  destruct (calc_cartesian_distance_strict GoiasMap) as (Hraise & Hdist).
  split.
  - apply Hraise. right. simpl. intuition discriminate.
  - apply Hdist; [exact Goias_keys_NoDup | simpl; tauto | simpl; tauto].
Defined.

Lemma visited_exclusion_witness :
  exists st evs,
    search DetourMap 6 init detourA detourD = Some (Ok None, st) /\
    trace st = trace init ++ evs /\
    forall before k after,
      evs = before ++ AddedToVisited k :: after ->
      Forall (fun e => ~ adds_route_to k e) after.
Proof.
  destruct detour_run as (_ & st & H6 & _).
  destruct (visited_exclusion DetourMap 6 init detourA detourD (Ok None) st H6)
    as (evs & Ht & Hex).
  exists st, evs. repeat split; assumption.
Defined.

(** * Further properties of the code *)

(** ** The distance function *)

(** X1. Where it is defined, the distance is symmetric and not negative,
    and it is 0 from a city to itself. *)
Theorem calc_cartesian_distance_metric (Map : list City) :
  (forall a b d,
     calc_cartesian_distance Map a b = Ok d ->
     calc_cartesian_distance Map b a = Ok d) /\
  (forall a b d, calc_cartesian_distance Map a b = Ok d -> 0 <= d) /\
  (forall a d, calc_cartesian_distance Map a a = Ok d -> d = 0).
Proof.
  split; [|split].
  - intros a b d. unfold calc_cartesian_distance.
    destruct (Map_getitem Map a) as [ca|]; [|discriminate].
    destruct (Map_getitem Map b) as [cb|]; [|discriminate].
    intros H.
    assert (E : d = sqrt ((latitude ca - latitude cb) ^ 2
                          + (longitude ca - longitude cb) ^ 2)) by congruence.
    rewrite E. do 2 f_equal. ring.
  - intros a b d. unfold calc_cartesian_distance.
    destruct (Map_getitem Map a) as [ca|]; [|discriminate].
    destruct (Map_getitem Map b) as [cb|]; [|discriminate].
    intros H.
    assert (E : d = sqrt ((latitude ca - latitude cb) ^ 2
                          + (longitude ca - longitude cb) ^ 2)) by congruence.
    rewrite E. apply sqrt_pos.
  - intros a d. unfold calc_cartesian_distance.
    destruct (Map_getitem Map a) as [ca|]; [|discriminate].
    intros H.
    assert (E : d = sqrt ((latitude ca - latitude ca) ^ 2
                          + (longitude ca - longitude ca) ^ 2)) by congruence.
    rewrite E. transitivity (sqrt 0); [f_equal; ring | apply sqrt_0].
Qed.

Lemma calc_cartesian_distance_metric_witness :
  calc_cartesian_distance PairMap "H" "G" = Ok 5 /\ 0 <= 5.
Proof.
  assert (E : calc_cartesian_distance PairMap "G" "H" = Ok 5) by dist_value.
  destruct (calc_cartesian_distance_metric PairMap) as (Hsym & Hpos & _).
  split; [apply Hsym; exact E | apply (Hpos "G" "H"); exact E].
Defined.



(** X3. The exception names the first key that is missing: [id_a] when it
    names no city, [id_b] when only [id_b] names none. *)
Theorem calc_cartesian_distance_first_missing (Map : list City)
    (id_a id_b : string) :
  (~ In id_a (keys Map) ->
   calc_cartesian_distance Map id_a id_b = Raise (KeyError id_a)) /\
  (In id_a (keys Map) -> ~ In id_b (keys Map) ->
   calc_cartesian_distance Map id_a id_b = Raise (KeyError id_b)).
Proof.
  unfold calc_cartesian_distance, Map_getitem. split.
  - intros Ha. apply find_key_None in Ha. now rewrite Ha.
  - intros Ha Hb. apply find_key_None in Hb. rewrite Hb.
    destruct (find (fun city => String.eqb (id city) id_a) Map) eqn:E;
      [reflexivity|].
    apply find_key_None in E. contradiction.
Qed.

Lemma calc_cartesian_distance_first_missing_witness :
  calc_cartesian_distance GoiasMap "Atlantis" "Lemuria"
    = Raise (KeyError "Atlantis") /\
  calc_cartesian_distance GoiasMap "Goiania" "Lemuria"
    = Raise (KeyError "Lemuria").
Proof.
  split.
  - apply (calc_cartesian_distance_first_missing GoiasMap "Atlantis" "Lemuria").
    simpl. intuition discriminate.
  - apply (calc_cartesian_distance_first_missing GoiasMap "Goiania" "Lemuria").
    + simpl. tauto.
    + simpl. intuition discriminate.
Defined.

(** ** The fringe as a container *)

(** X4. [add_route] loses and duplicates nothing: the fringe after the call
    is a rearrangement of the new route and the old fringe, and a fringe
    built by a run of additions is a rearrangement of the run, one longer
    per addition. *)
Theorem add_route_permutation :
  (forall self route,
     Permutation (route :: fringe self) (fringe (add_route self route))) /\
  (forall routes, Permutation routes (fringe_of routes)) /\
  (forall routes, List.length (fringe_of routes) = List.length routes).
Proof.
  assert (Hins : forall f route,
            Permutation (route :: f) (insert_route f route)).
  { intros f route. induction f as [|c rest IH]; simpl.
    - reflexivity.
    - destruct (Rlt_dec _ _); [reflexivity|].
      rewrite perm_swap. now constructor. }
  assert (Hfold : forall routes f,
            Permutation (f ++ routes) (fold_left insert_route routes f)).
  { induction routes as [|r routes IH]; intros f; simpl.
    - now rewrite app_nil_r.
    - rewrite <- IH. rewrite <- Hins. simpl.
      apply Permutation_sym, Permutation_middle. }
  split; [|split].
  - intros self route. apply Hins.
  - intros routes. apply (Hfold routes []).
  - intros routes. symmetry. apply Permutation_length. apply (Hfold routes []).
Qed.

(** X5. [next_route] raises [IndexError] on an empty fringe and leaves the
    engine as it was; on any other fringe it returns the last route and
    removes it, and nothing else changes. *)
Theorem next_route_pops_tail (self : GPSGreedyBestFirst) :
  (fringe self = [] -> next_route self = (Raise IndexError, self)) /\
  (forall rest r,
     fringe self = rest ++ [r] ->
     next_route self = (Ok r, mkGPS rest (visited self) (trace self))) /\
  (forall r self',
     next_route self = (Ok r, self') ->
     fringe self = fringe self' ++ [r] /\
     visited self' = visited self /\ trace self' = trace self).
Proof.
  unfold next_route. split; [|split].
  - intros ->. reflexivity.
  - intros rest r ->. now rewrite pop_last_app.
  - intros r self'.
    destruct (pop_last (fringe self)) as [[rest x]|] eqn:E; [|discriminate].
    intros H. injection H as <- <-. simpl.
    apply pop_last_Some in E. auto.
Qed.

Lemma next_route_pops_tail_witness :
  next_route init = (Raise IndexError, init) /\
  next_route (mkGPS [scored "a" 5; scored "b" 3] ["x"] [])
    = (Ok (scored "b" 3), mkGPS [scored "a" 5] ["x"] []).
Proof.
  split.
  - apply (next_route_pops_tail init). reflexivity.
  - apply (next_route_pops_tail (mkGPS [scored "a" 5; scored "b" 3] ["x"] [])).
    reflexivity.
Defined.

(** ** Unknown keys during a search *)

(** X6. A search whose origin or destination names no city raises
    [KeyError] for it before the fringe is touched: the engine keeps its
    fringe and its visited list, only the start of the search is logged. *)
Theorem search_unknown_city (Map : list City) (fuel : nat)
    (self : GPSGreedyBestFirst) (origin destination : City) :
  (~ In (id origin) (keys Map) ->
   search Map fuel self origin destination =
     Some (Raise (KeyError (id origin)),
           mkGPS (fringe self) (visited self)
                 (trace self ++ [Starting (id origin) (id destination)]))) /\
  (In (id origin) (keys Map) -> ~ In (id destination) (keys Map) ->
   search Map fuel self origin destination =
     Some (Raise (KeyError (id destination)),
           mkGPS (fringe self) (visited self)
                 (trace self ++ [Starting (id origin) (id destination)]))).
Proof.
  unfold search, calc_cartesian_distance, Map_getitem. split.
  - intros Ho. apply find_key_None in Ho. now rewrite Ho.
  - intros Ho Hd. apply find_key_None in Hd. rewrite Hd.
    destruct (find (fun city => String.eqb (id city) (id origin)) Map) eqn:E;
      [reflexivity|].
    apply find_key_None in E. contradiction.
Qed.

Lemma search_unknown_city_witness :
  search GoiasMap 3 init (mkCity "Atlantis" 0 0 []) Goiania =
    Some (Raise (KeyError "Atlantis"),
          mkGPS [] [] [Starting "Atlantis" "Goiania"]) /\
  search GoiasMap 3 init Goiania (mkCity "Atlantis" 0 0 []) =
    Some (Raise (KeyError "Atlantis"),
          mkGPS [] [] [Starting "Goiania" "Atlantis"]).
Proof.
  split.
  - apply (search_unknown_city GoiasMap 3 init (mkCity "Atlantis" 0 0 [])
             Goiania).
    simpl. intuition discriminate.
  - apply (search_unknown_city GoiasMap 3 init Goiania
             (mkCity "Atlantis" 0 0 [])).
    + simpl. tauto.
    + simpl. intuition discriminate.
Defined.

Lemma add_routes_loop_dangling (Map : list City) (route : Route)
    (k : string) (destination : City) (n : string) (after : list string) :
  In k (keys Map) -> In (id destination) (keys Map) -> ~ In n (keys Map) ->
  forall before self,
    (forall m, In m before -> In m (keys Map)) ->
    mem n (visited self) = false ->
    exists self',
      add_routes_loop Map self route k destination (before ++ n :: after)
        = (Raise (KeyError n), self') /\
      visited self' = visited self /\
      fringe self' =
        fold_left insert_route
          (expansion Map (visited self) route k destination before)
          (fringe self).
Proof.
  intros Hk Hd Hn. induction before as [|m before IH]; intros self Hb Hm; simpl.
  - rewrite Hm.
    assert (E : calc_cartesian_distance Map k n = Raise (KeyError n)).
    { unfold calc_cartesian_distance.
      destruct (Map_getitem_In Map k Hk) as (c & -> & _).
      unfold Map_getitem. apply find_key_None in Hn. now rewrite Hn. }
    rewrite E. eexists. repeat split.
  - assert (Hb' : forall x, In x before -> In x (keys Map))
      by (intros x Hx; apply Hb; now right).
    destruct (mem m (visited self)) eqn:Em.
    + destruct (IH (emit (NeighbourSkipped m) self) Hb' Hm)
        as (s & Hs & Hv & Hf).
      exists s. repeat split; assumption.
    + destruct (calc_cartesian_distance_In Map k m Hk (Hb m (or_introl eq_refl)))
        as [d1 E1].
      destruct (calc_cartesian_distance_In Map (id destination) m Hd
                  (Hb m (or_introl eq_refl))) as [d2 E2].
      rewrite E1, E2.
      destruct (IH (add_route self
                      (mkRoute (cities_ids route ++ [m]) (d1 + cost route) d2))
                   Hb' Hm) as (s & Hs & Hv & Hf).
      exists s. repeat split; assumption.
Qed.

(** X7. A neighbour key that names no city stops the expansion of a route
    with [KeyError] for that key, unless the key is already in [visited];
    the routes for the neighbours listed before it stay in the fringe. *)
Theorem add_routes_for_neighbours_dangling (Map : list City)
    (self : GPSGreedyBestFirst) (route : Route) (destination : City)
    (k n : string) (before after : list string) :
  last_city_id route = Ok k ->
  In k (keys Map) -> In (id destination) (keys Map) ->
  get_neighbours Map k = before ++ n :: after ->
  (forall m, In m before -> In m (keys Map)) ->
  ~ In n (keys Map) ->
  (mem n (visited self) = false ->
   exists self',
     add_routes_for_neighbours Map self route destination
       = (Raise (KeyError n), self') /\
     visited self' = visited self /\
     fringe self' =
       fold_left insert_route
         (expansion Map (visited self) route k destination before)
         (fringe self)) /\
  (mem n (visited self) = true ->
   (forall m, In m after -> In m (keys Map)) ->
   exists self',
     add_routes_for_neighbours Map self route destination = (Ok tt, self')).
Proof.
  intros Hlast Hk Hd Hnb Hb Hn. unfold add_routes_for_neighbours.
  rewrite Hlast, Hnb. split.
  - intros Hm. now apply add_routes_loop_dangling.
  - intros Hm Ha. clear Hnb. revert self Hm.
    induction before as [|m before IH]; intros self Hm; simpl.
    + rewrite Hm.
      apply add_routes_loop_ok; assumption.
    + assert (Hb' : forall x, In x before -> In x (keys Map))
        by (intros x Hx; apply Hb; now right).
      destruct (mem m (visited self)) eqn:Em.
      * apply (IH Hb'). exact Hm.
      * destruct (calc_cartesian_distance_In Map k m Hk
                    (Hb m (or_introl eq_refl))) as [d1 ->].
        destruct (calc_cartesian_distance_In Map (id destination) m Hd
                    (Hb m (or_introl eq_refl))) as [d2 ->].
        apply (IH Hb'). exact Hm.
Qed.

Lemma add_routes_for_neighbours_dangling_witness :
  exists self',
    add_routes_for_neighbours DanglingMap init (mkRoute ["A"] 0 5) danglingC
      = (Raise (KeyError "Z"), self') /\
    visited self' = [] /\
    List.length (fringe self') = 1%nat.
Proof.
  destruct (add_routes_for_neighbours_dangling DanglingMap init
              (mkRoute ["A"] 0 5) danglingC "A" "Z" ["B"] ["C"])
    as [H _].
  - reflexivity.
  - simpl. tauto.
  - simpl. tauto.
  - reflexivity.
  - simpl. intros m [<-|[]]. tauto.
  - simpl. intuition discriminate.
  - destruct (H eq_refl) as (self' & Hs & Hv & Hf).
    exists self'. split; [exact Hs|]. split; [exact Hv|].
    rewrite Hf.
    assert (E1 : calc_cartesian_distance DanglingMap "A" "B" = Ok 5)
      by dist_value.
    assert (E2 : calc_cartesian_distance DanglingMap "C" "B" = Ok (sqrt 10))
      by (unfold calc_cartesian_distance; simpl; do 2 f_equal; lra).
    cbn -[calc_cartesian_distance]. rewrite E1, E2. reflexivity.
Defined.

(** ** What a search does to the engine it is given *)

Lemma search_loop_visited_extension (Map : list City) (fuel : nat)
    (origin destination : City) :
  forall self res self',
    search_loop Map fuel self origin destination = Some (res, self') ->
    exists more,
      visited self' = visited self ++ more /\ ~ In (id destination) more.
Proof.
  induction fuel as [|fuel IH]; intros self res self' H; simpl in H.
  - destruct (fringe self); [|discriminate]. injection H as _ <-.
    exists []. simpl. rewrite app_nil_r. auto.
  - destruct (fringe self) as [|r0 f0] eqn:Ef.
    { injection H as _ <-. exists []. simpl. rewrite app_nil_r. auto. }
    assert (Hne : fringe self <> []) by congruence.
    destruct (fringe_nonempty_pop _ Hne) as (rest & curr & Hpop).
    destruct (loop_body_inv Map self destination rest curr Hpop)
      as [[_ Hb]|[[_ Hb]|(k & s & _ & Hkd & Hb & Hv & _)]].
    + rewrite Hb in H. injection H as _ <-. exists []. simpl.
      rewrite app_nil_r. auto.
    + rewrite Hb in H. injection H as _ <-. exists []. simpl.
      rewrite app_nil_r. auto.
    + destruct Hb as [Hb|[e Hb]]; rewrite Hb in H.
      * apply IH in H. destruct H as (more & Hm & Hnot).
        exists (k :: more). rewrite Hm, Hv, <- app_assoc. split; [reflexivity|].
        intros [E|Hin]; [now apply Hkd | contradiction].
      * injection H as _ <-. exists [k]. split; [exact Hv|].
        intros [E|[]]. now apply Hkd.
Qed.

(** X8. A search only appends to the visited list it is given, and never
    appends the key of its destination. *)
Theorem search_visited_extension (Map : list City) (fuel : nat)
    (self : GPSGreedyBestFirst) (origin destination : City)
    (res : result (option Route)) (self' : GPSGreedyBestFirst) :
  search Map fuel self origin destination = Some (res, self') ->
  exists more,
    visited self' = visited self ++ more /\ ~ In (id destination) more.
Proof.
  unfold search.
  destruct (calc_cartesian_distance Map (id origin) (id destination)).
  - intros H. apply search_loop_visited_extension in H. exact H.
  - intros H. injection H as _ <-. exists []. simpl. rewrite app_nil_r. auto.
Qed.

Lemma search_visited_extension_witness :
  exists st more,
    search DetourMap 6 init detourA detourD = Some (Ok None, st) /\
    visited st = visited init ++ more /\ ~ In "D" more.
Proof.
  destruct detour_run as (_ & st & H6 & _).
  destruct (search_visited_extension DetourMap 6 init detourA detourD
              (Ok None) st H6) as (more & Hm & Hnot).
  exists st, more. repeat split; assumption.
Defined.

(** X9. A route left in the fringe by an earlier search is returned by the
    next one when it sits at the tail, ends at the new destination and has a
    heuristic below the distance from the new origin to the destination:
    the first pass pops and returns it, whatever its first city. *)
Theorem search_returns_stale_route (Map : list City) (fuel : nat)
    (self : GPSGreedyBestFirst) (origin destination : City)
    (rest : list Route) (stale : Route) (dist : R) :
  fringe self = rest ++ [stale] ->
  last_city_id stale = Ok (id destination) ->
  calc_cartesian_distance Map (id origin) (id destination) = Ok dist ->
  heuristic stale < dist ->
  exists self',
    search Map (S fuel) self origin destination
      = Some (Ok (Some stale), self') /\
    visited self' = visited self /\
    fringe self' = insert_route rest (mkRoute [id origin] 0 dist).
Proof.
  intros Hf Hlast Hd Hlt. unfold search. rewrite Hd.
  set (ini := mkRoute [id origin] 0 dist).
  set (s0 := add_route _ ini).
  assert (Hpop : pop_last (fringe s0) = Some (insert_route rest ini, stale)).
  { unfold s0. simpl. rewrite Hf, insert_route_keeps_tail.
    - apply pop_last_app.
    - unfold heuristic, ini in *. simpl. lra. }
  destruct (loop_body_inv Map s0 destination _ stale Hpop)
    as [[E _]|[[_ Hb]|(k & s & Hk & Hkd & _)]]; [congruence | | congruence].
  eexists. split; [|split].
  - rewrite search_loop_S.
    destruct (fringe s0) as [|r0 f0]; [discriminate Hpop|].
    rewrite Hb. reflexivity.
  - reflexivity.
  - reflexivity.
Qed.

Lemma search_returns_stale_route_witness :
  exists self',
    search PairMap 1 (mkGPS [mkRoute ["X"; "H"] 1 0] [] []) pairG pairH
      = Some (Ok (Some (mkRoute ["X"; "H"] 1 0)), self').
Proof.
  destruct (search_returns_stale_route PairMap 0
              (mkGPS [mkRoute ["X"; "H"] 1 0] [] []) pairG pairH []
              (mkRoute ["X"; "H"] 1 0) 5) as (self' & H & _).
  - reflexivity.
  - reflexivity.
  - dist_value.
  - unfold heuristic. simpl. lra.
  - now exists self'.
Defined.

(** X10. On a map whose neighbour keys all name cities, an engine that
    holds the destination in its visited list and no route to it in its
    fringe finds no route from another city: the search returns [None]. *)
Theorem search_skips_visited_destination (Map : list City)
    (self : GPSGreedyBestFirst) (origin destination : City) :
  closed_map Map ->
  In (id origin) (keys Map) -> In (id destination) (keys Map) ->
  id origin <> id destination ->
  In (id destination) (visited self) ->
  (forall r, In r (fringe self) ->
     exists k, last_city_id r = Ok k /\ In k (keys Map) /\
               k <> id destination) ->
  exists fuel self',
    search Map fuel self origin destination = Some (Ok None, self') /\
    fringe self' = [].
Proof.
  intros Hc Ho Hd Hneq Hvis Hfr. unfold search.
  destruct (calc_cartesian_distance_In Map _ _ Ho Hd) as [dist ->].
  set (s0 := add_route _ _).
  destruct (search_loop_terminates Map origin destination
              (passes_bound Map s0) s0 (le_n _)) as [[res self'] Hout].
  exists (passes_bound Map s0), self'.
  set (Inv := fun s : GPSGreedyBestFirst =>
         (forall r, In r (fringe s) ->
            exists k, last_city_id r = Ok k /\ In k (keys Map) /\
                      k <> id destination) /\
         In (id destination) (visited s)).
  assert (H0 : Inv s0).
  { split; [|exact Hvis]. unfold s0. simpl.
    intros r Hr. apply insert_route_In in Hr. destruct Hr as [->|Hr].
    - exists (id origin). repeat split; assumption.
    - now apply Hfr. }
  assert (Hstep : forall s s1, Inv s ->
                    loop_body Map s destination = Continue s1 -> Inv s1).
  { intros s s1 [HI1 HI2] Hb.
    assert (Hne : fringe s <> []).
    { intros E. unfold loop_body, next_route in Hb. rewrite E in Hb.
      discriminate. }
    destruct (loop_body_visited_destination Map destination s Hc Hd HI1 HI2 Hne)
      as (s' & Hs' & HI').
    assert (s' = s1) by congruence. subst s'. exact HI'. }
  destruct (search_loop_invariant Inv Map origin destination Hstep _ s0 res self'
              H0 Hout) as (s & [HI1 HI2] & [(Hemp & -> & ->)|(Hne & Hb)]).
  - split; [exact Hout | exact Hemp].
  - exfalso.
    destruct (loop_body_visited_destination Map destination s Hc Hd HI1 HI2 Hne)
      as (s' & Hs' & _).
    congruence.
Qed.

Lemma search_skips_visited_destination_witness :
  exists fuel self',
    search GoiasMap fuel (mkGPS [] ["Formiga"] []) Piracanjuba Formiga
      = Some (Ok None, self').
Proof.
  destruct (search_skips_visited_destination GoiasMap
              (mkGPS [] ["Formiga"] []) Piracanjuba Formiga Goias_closed)
    as (fuel & self' & H & _).
  - simpl. tauto.
  - simpl. tauto.
  - discriminate.
  - simpl. tauto.
  - simpl. contradiction.
  - now exists fuel, self'.
Defined.

(** ** Paths and the routes of a search *)

Lemma distance_Ok (Map : list City) (a b : string) (d : R) :
  calc_cartesian_distance Map a b = Ok d -> distance Map a b = d.
Proof. intros H. unfold distance. now rewrite H. Qed.

Lemma distance_keys (Map : list City) (a b : string) :
  In a (keys Map) -> In b (keys Map) ->
  calc_cartesian_distance Map a b = Ok (distance Map a b).
Proof.
  intros Ha Hb. destruct (calc_cartesian_distance_In Map a b Ha Hb) as [d H].
  now rewrite (distance_Ok _ _ _ _ H).
Qed.

Lemma calc_cartesian_distance_keys (Map : list City) (a b : string) (d : R) :
  calc_cartesian_distance Map a b = Ok d ->
  In a (keys Map) /\ In b (keys Map).
Proof.
  intros H.
  destruct (in_dec string_dec a (keys Map)) as [Ha|Ha].
  - split; [assumption|].
    destruct (in_dec string_dec b (keys Map)) as [Hb|Hb]; [assumption|].
    exfalso. apply find_key_None in Hb.
    unfold calc_cartesian_distance, Map_getitem in H. rewrite Hb in H.
    destruct (find _ Map); discriminate.
  - exfalso. apply find_key_None in Ha.
    unfold calc_cartesian_distance, Map_getitem in H. rewrite Ha in H.
    discriminate.
Qed.

Lemma last_item_Ok {A : Type} (l : list A) (x : A) :
  last_item l = Ok x -> exists init, l = init ++ [x].
Proof.
  induction l as [|y l IH]; simpl; [discriminate|].
  destruct l as [|z l].
  - intros [= ->]. now exists [].
  - intros H. destruct (IH H) as [init E]. exists (y :: init).
    simpl. now rewrite E.
Qed.

Lemma last_item_cons {A : Type} (y : A) (l : list A) :
  l <> [] -> last_item (y :: l) = last_item l.
Proof. destruct l; [contradiction | reflexivity]. Qed.

Lemma last_item_app_cons {A : Type} (l1 : list A) (x : A) (l2 : list A) :
  last_item (l1 ++ x :: l2) = last_item (x :: l2).
Proof.
  induction l1 as [|y l1 IH]; [reflexivity|].
  change ((y :: l1) ++ x :: l2) with (y :: (l1 ++ x :: l2)).
  rewrite last_item_cons; [exact IH | now destruct l1].
Qed.

(** A path split at one of its cities. *)
Lemma path_cost_app (Map : list City) (l1 : list string) (x : string)
    (l2 : list string) :
  path_cost Map (l1 ++ x :: l2)
  = path_cost Map (l1 ++ [x]) + path_cost Map (x :: l2).
Proof.
  induction l1 as [|a l1 IH].
  - simpl. lra.
  - destruct l1 as [|b l1].
    + simpl. destruct l2; simpl; lra.
    + change (path_cost Map ((a :: b :: l1) ++ x :: l2))
        with (distance Map a b + path_cost Map ((b :: l1) ++ x :: l2)).
      change (path_cost Map ((a :: b :: l1) ++ [x]))
        with (distance Map a b + path_cost Map ((b :: l1) ++ [x])).
      rewrite IH. lra.
Qed.

Lemma chain_app (Map : list City) (l1 : list string) (x : string)
    (l2 : list string) :
  chain Map (l1 ++ x :: l2) <->
  chain Map (l1 ++ [x]) /\ chain Map (x :: l2).
Proof.
  induction l1 as [|a l1 IH].
  - simpl. tauto.
  - destruct l1 as [|b l1].
    + simpl. destruct l2; simpl; tauto.
    + change (chain Map ((a :: b :: l1) ++ x :: l2))
        with (road Map a b /\ chain Map ((b :: l1) ++ x :: l2)).
      change (chain Map ((a :: b :: l1) ++ [x]))
        with (road Map a b /\ chain Map ((b :: l1) ++ [x])).
      rewrite IH. tauto.
Qed.

Lemma path_cost_snoc (Map : list City) (ks : list string) (k n : string) :
  last_item ks = Ok k ->
  path_cost Map (ks ++ [n]) = path_cost Map ks + distance Map k n.
Proof.
  intros H. apply last_item_Ok in H. destruct H as [init ->].
  rewrite <- app_assoc. simpl.
  rewrite (path_cost_app Map init k [n]). simpl. lra.
Qed.

Lemma chain_snoc (Map : list City) (ks : list string) (k n : string) :
  last_item ks = Ok k -> chain Map ks -> road Map k n ->
  chain Map (ks ++ [n]).
Proof.
  intros H Hc Hr. apply last_item_Ok in H. destruct H as [init ->].
  rewrite <- app_assoc. simpl. apply chain_app. simpl. tauto.
Qed.

(** The routes that a pass adds are sound when the expanded route is. *)
Lemma expansion_sound (Map : list City) (origin : string)
    (destination : City) (vis : list string) (curr : Route) (k : string)
    (init : list string) :
  sound_route Map origin (id destination) curr ->
  cities_ids curr = init ++ [k] ->
  incl init vis ->
  forall r,
    In r (expansion Map (vis ++ [k]) curr k destination
                    (get_neighbours Map k)) ->
    sound_route Map origin (id destination) r /\
    exists n, cities_ids r = cities_ids curr ++ [n].
Proof.
  intros [Hs Hc Hk Hnd Hcost _] Ecit Hinit r Hr.
  assert (Hlast : last_item (cities_ids curr) = Ok k)
    by (rewrite Ecit; apply last_item_app).
  pose proof (expansion_routes Map (vis ++ [k]) curr k destination
                (get_neighbours Map k)) as Hex.
  rewrite Forall_forall in Hex.
  destruct (Hex r Hr) as (n & d1 & d2 & Hn & Hm & H1 & H2 & ->).
  split; [|now exists n]. constructor; simpl.
  - rewrite Ecit in Hs |- *. destruct init; simpl in *; exact Hs.
  - now apply chain_snoc with (k := k).
  - apply Forall_app. split; [assumption|].
    constructor; [|constructor].
    now apply (calc_cartesian_distance_keys Map k n d1).
  - rewrite Ecit in Hnd |- *.
    apply NoDup_app_remove_r in Hnd as Hnd1.
    apply mem_false in Hm.
    rewrite <- app_assoc. simpl.
    apply NoDup_remove_1 in Hnd as Hnd2. rewrite app_nil_r in Hnd2.
    apply NoDup_remove_2 in Hnd. rewrite app_nil_r in Hnd.
    assert (Hn1 : ~ In n init).
    { intros Hin. apply Hm. apply in_or_app. left. now apply Hinit. }
    assert (Hn2 : n <> k).
    { intros ->. apply Hm. apply in_or_app. right. now left. }
    clear -Hnd Hnd2 Hn1 Hn2.
    induction init as [|a init IH]; simpl.
    + constructor; [intros [E|[]]; now apply Hn2 | constructor; [tauto | constructor]].
    + inversion Hnd2; subst. constructor.
      * intros Hin. apply in_app_or in Hin. simpl in Hin.
        destruct Hin as [Hin|[E|[E|[]]]].
        -- contradiction.
        -- apply Hnd. now left.
        -- apply Hn1. now left.
      * apply IH; [intros Hin; apply Hnd; now right | assumption
                  | intros Hin; apply Hn1; now right].
  - rewrite (path_cost_snoc Map _ k n Hlast), Hcost.
    rewrite (distance_Ok _ _ _ _ H1). lra.
  - exists n. split; [unfold last_city_id; simpl; apply last_item_app|].
    symmetry. now apply distance_Ok.
Qed.

Lemma loop_body_sound (Map : list City) (origin : string)
    (destination : City) (self self' : GPSGreedyBestFirst) :
  sound_fringe Map origin (id destination) self ->
  loop_body Map self destination = Continue self' ->
  sound_fringe Map origin (id destination) self'.
Proof.
  intros HI Hb.
  destruct (pop_last (fringe self)) as [[rest curr]|] eqn:Hpop.
  2:{ unfold loop_body, next_route in Hb. rewrite Hpop in Hb. discriminate. }
  pose proof (pop_last_Some _ _ _ Hpop) as Hf.
  destruct (loop_body_inv Map self destination rest curr Hpop)
    as [[_ E]|[[_ E]|(k & s & Hk & _ & Hc & Hv & Hf' & _)]];
    try (rewrite E in Hb; discriminate).
  assert (s = self') as ->.
  { destruct Hc as [E|[e E]]; rewrite E in Hb; congruence. }
  assert (Hcurr : In curr (fringe self))
    by (rewrite Hf; apply in_or_app; right; now left).
  destruct (HI curr Hcurr) as [Hsound Hinit].
  destruct (last_item_Ok _ _ Hk) as [init Ecit].
  intros r Hr. rewrite Hf' in Hr. apply fold_insert_In in Hr.
  destruct Hr as [Hr|Hr].
  - assert (Hr' : In r (fringe self))
      by (rewrite Hf; apply in_or_app; now left).
    destruct (HI r Hr') as [Hs Hi]. split; [assumption|].
    intros i x E y Hy. rewrite Hv. apply in_or_app. left.
    now apply (Hi i x E).
  - destruct (expansion_sound Map origin destination (visited self) curr k
                init Hsound Ecit (Hinit init k Ecit) r Hr) as [Hs [n En]].
    split; [assumption|].
    intros i x E y Hy. rewrite En in E. apply app_inj_tail in E.
    destruct E as [<- _]. rewrite Ecit in Hy. rewrite Hv.
    apply in_app_or in Hy. apply in_or_app.
    destruct Hy as [Hy|Hy]; [left; now apply (Hinit init k Ecit) | now right].
Qed.

(** X11. On an engine whose fringe is empty, the route that a search
    returns goes from the origin to the destination along roads of the map,
    through cities of the map and through none of them twice; its cost is
    the sum of the distances between consecutive cities, and its estimate
    is 0. *)
Theorem returned_route_sound (Map : list City) (fuel : nat)
    (self : GPSGreedyBestFirst) (origin destination : City) (route : Route)
    (self' : GPSGreedyBestFirst) :
  fringe self = [] ->
  search Map fuel self origin destination = Some (Ok (Some route), self') ->
  hd_error (cities_ids route) = Some (id origin) /\
  last_city_id route = Ok (id destination) /\
  chain Map (cities_ids route) /\
  Forall (fun k => In k (keys Map)) (cities_ids route) /\
  NoDup (cities_ids route) /\
  cost route = path_cost Map (cities_ids route) /\
  evaluation route = 0.
Proof.
  intros Hempty H. unfold search in H.
  destruct (calc_cartesian_distance Map (id origin) (id destination))
    as [dist|e] eqn:Ed; [|discriminate].
  set (s0 := add_route _ _) in H.
  assert (H0 : sound_fringe Map (id origin) (id destination) s0).
  { intros r Hr. unfold s0 in Hr. simpl in Hr. rewrite Hempty in Hr.
    simpl in Hr. destruct Hr as [<-|[]].
    destruct (calc_cartesian_distance_keys _ _ _ _ Ed) as [Ho Hd].
    split.
    - constructor; simpl.
      + reflexivity.
      + exact I.
      + constructor; [assumption | constructor].
      + constructor; [intros [] | constructor].
      + reflexivity.
      + exists (id origin). split; [reflexivity|].
        symmetry. apply distance_Ok.
        now apply calc_cartesian_distance_sym.
    - intros init k E. destruct init as [|a init].
      + intros x [].
      + simpl in E. injection E as _ E. now destruct init. }
  destruct (search_loop_invariant
              (sound_fringe Map (id origin) (id destination))
              Map origin destination
              (fun s s1 => loop_body_sound Map (id origin) destination s s1)
              fuel s0 _ self' H0 H)
    as (s & HI & [(_ & E & _)|(Hne & Hb)]); [discriminate E|].
  destruct (fringe_nonempty_pop _ Hne) as (rest & curr & Hpop).
  pose proof (pop_last_Some _ _ _ Hpop) as Hf.
  destruct (loop_body_inv Map s destination rest curr Hpop)
    as [[_ E]|[[Hlast E]|(k & s1 & _ & _ & [E|[e E]] & _)]];
    rewrite E in Hb; try discriminate.
  injection Hb as -> _.
  assert (Hcurr : In route (fringe s))
    by (rewrite Hf; apply in_or_app; right; now left).
  destruct (HI route Hcurr) as [[Hs Hc Hk Hnd Hcost (k & Hk1 & Hk2)] _].
  repeat split; try assumption.
  rewrite Hk2. assert (k = id destination) by congruence. subst k.
  destruct (last_item_Ok _ _ Hlast) as [init Ecit].
  assert (Hd : In (id destination) (keys Map)).
  { rewrite Forall_forall in Hk. apply Hk. rewrite Ecit.
    apply in_or_app. right. now left. }
  pose proof (distance_keys Map _ _ Hd Hd) as Hdd.
  now apply calc_cartesian_distance_same in Hdd.
Qed.

Lemma returned_route_sound_witness :
  cost (mkRoute ["G"; "H"] (5 + 0) 0) = path_cost PairMap ["G"; "H"] /\
  chain PairMap ["G"; "H"].
Proof.
  destruct search_pair_scenario as [self' H].
  destruct (returned_route_sound PairMap 2 init pairG pairH _ self' eq_refl H)
    as (_ & _ & Hc & _ & _ & Hcost & _).
  split; [exact Hcost | exact Hc].
Defined.

(** ** Searches on a map without dangling neighbour keys *)

Lemma expansion_keyed (Map : list City) (vis : list string) (route : Route)
    (last_id : string) (destination : City) (ids : list string) (r : Route) :
  In r (expansion Map vis route last_id destination ids) ->
  exists n d1 d2,
    In n ids /\ mem n vis = false /\ In n (keys Map) /\
    calc_cartesian_distance Map last_id n = Ok d1 /\
    calc_cartesian_distance Map (id destination) n = Ok d2 /\
    last_city_id r = Ok n /\ cost r = d1 + cost route /\ evaluation r = d2.
Proof.
  intros Hr.
  pose proof (expansion_routes Map vis route last_id destination ids) as Hex.
  rewrite Forall_forall in Hex.
  destruct (Hex r Hr) as (n & d1 & d2 & Hn & Hm & H1 & H2 & ->).
  exists n, d1, d2. repeat split; try assumption.
  - now apply (calc_cartesian_distance_keys Map last_id n d1).
  - unfold last_city_id. simpl. apply last_item_app.
Qed.

(** A pass on a map without dangling keys: the popped route ends at a city
    of the map; it is returned when that city is the destination, and
    expanded without an exception otherwise. *)
Lemma loop_body_closed (Map : list City) (destination : City)
    (self : GPSGreedyBestFirst) (rest : list Route) (curr : Route) :
  closed_map Map -> In (id destination) (keys Map) ->
  keyed_fringe Map self ->
  pop_last (fringe self) = Some (rest, curr) ->
  exists k,
    last_city_id curr = Ok k /\ In k (keys Map) /\
    ((k = id destination /\
      exists self',
        loop_body Map self destination = Returned (Ok (Some curr)) self') \/
     (k <> id destination /\
      exists self',
        loop_body Map self destination = Continue self' /\
        visited self' = visited self ++ [k] /\
        fringe self' =
          fold_left insert_route
            (expansion Map (visited self ++ [k]) curr k destination
                       (get_neighbours Map k)) rest /\
        keyed_fringe Map self')).
Proof.
  intros Hc Hd HK Hpop.
  pose proof (pop_last_Some _ _ _ Hpop) as Hf.
  assert (Hcurr : In curr (fringe self))
    by (rewrite Hf; apply in_or_app; right; now left).
  destruct (HK curr Hcurr) as (k & Hk & Hkin).
  exists k. split; [assumption|]. split; [assumption|].
  destruct (loop_body_inv Map self destination rest curr Hpop)
    as [[E _]|[[E Hb]|(k' & s & Hk' & Hkd & _ & Hv & Hf' & _ & res & Hloop & Hb)]].
  - congruence.
  - left. split; [congruence|]. eexists. exact Hb.
  - assert (k' = k) by congruence. subst k'. right. split; [assumption|].
    assert (Hids : forall n, In n (get_neighbours Map k) -> In n (keys Map)).
    { intros n Hn. eapply get_neighbours_closed; [exact Hc | exact Hn]. }
    destruct (add_routes_loop_ok Map curr k destination (get_neighbours Map k)
                Hkin Hd Hids
                (mkGPS rest (visited self ++ [k])
                   ((trace self ++ [Analysing curr]) ++ [AddedToVisited k])))
      as [s1 Hs1].
    rewrite Hs1 in Hloop. injection Hloop as <- <-.
    exists s1. repeat split; try assumption.
    intros r Hr. rewrite Hf' in Hr. apply fold_insert_In in Hr.
    destruct Hr as [Hr|Hr].
    + apply HK. rewrite Hf. apply in_or_app. now left.
    + destruct (expansion_keyed _ _ _ _ _ _ _ Hr)
        as (n & _ & _ & _ & _ & Hn & _ & _ & Hl & _).
      now exists n.
Qed.

(** X12. On a map whose neighbour keys all name cities, a search between two
    cities of the map never raises, on any engine whose routes end at cities
    of the map: it returns a route or [None]. *)
Theorem search_never_raises (Map : list City) (fuel : nat)
    (self : GPSGreedyBestFirst) (origin destination : City)
    (res : result (option Route)) (self' : GPSGreedyBestFirst) :
  closed_map Map ->
  In (id origin) (keys Map) -> In (id destination) (keys Map) ->
  keyed_fringe Map self ->
  search Map fuel self origin destination = Some (res, self') ->
  exists found, res = Ok found.
Proof.
  intros Hc Ho Hd HK H. unfold search in H.
  destruct (calc_cartesian_distance_In Map _ _ Ho Hd) as [dist Ed].
  rewrite Ed in H. set (s0 := add_route _ _) in H.
  assert (H0 : keyed_fringe Map s0).
  { intros r Hr. unfold s0 in Hr. simpl in Hr. apply insert_route_In in Hr.
    destruct Hr as [->|Hr]; [now exists (id origin) | now apply HK]. }
  assert (Hstep : forall s s1, keyed_fringe Map s ->
            loop_body Map s destination = Continue s1 -> keyed_fringe Map s1).
  { intros s s1 HI Hb.
    destruct (pop_last (fringe s)) as [[rest curr]|] eqn:Hpop.
    2:{ unfold loop_body, next_route in Hb. rewrite Hpop in Hb. discriminate. }
    destruct (loop_body_closed Map destination s rest curr Hc Hd HI Hpop)
      as (k & _ & _ & [(_ & s' & E)|(_ & s' & E & _ & _ & HK')]);
      [congruence|].
    assert (s' = s1) by congruence. now subst. }
  destruct (search_loop_invariant (keyed_fringe Map) Map origin destination
              Hstep fuel s0 res self' H0 H)
    as (s & HI & [(_ & -> & _)|(Hne & Hb)]); [now exists None|].
  destruct (fringe_nonempty_pop _ Hne) as (rest & curr & Hpop).
  destruct (loop_body_closed Map destination s rest curr Hc Hd HI Hpop)
    as (k & _ & _ & [(_ & s' & E)|(_ & s' & E & _)]); [|congruence].
  rewrite E in Hb. injection Hb as <- _. now exists (Some curr).
Qed.

Lemma search_never_raises_witness :
  exists st found,
    search DetourMap 6 init detourA detourD = Some (Ok found, st).
Proof.
  destruct detour_run as (_ & st & H6 & _).
  destruct (search_never_raises DetourMap 6 init detourA detourD (Ok None) st
              detour_closed) as [found E].
  - simpl. tauto.
  - simpl. tauto.
  - intros r [].
  - exact H6.
  - exists st, found. rewrite <- E. exact H6.
Defined.

(** ** The route found is a shortest one *)

Lemma in_split_last (k : string) (l : list string) :
  In k l -> exists l1 l2, l = l1 ++ k :: l2 /\ ~ In k l2.
Proof.
  induction l as [|a l IH]; [contradiction|].
  intros Hin. destruct (in_dec string_dec k l) as [Hl|Hl].
  - destruct (IH Hl) as (l1 & l2 & -> & Hn). now exists (a :: l1), l2.
  - destruct Hin as [->|Hin]; [|contradiction]. now exists [], l.
Qed.

Lemma chain_keys (Map : list City) (l : list string) (a : string) :
  closed_map Map -> In a (keys Map) -> chain Map (a :: l) ->
  Forall (fun k => In k (keys Map)) (a :: l).
Proof.
  intros Hc. revert a. induction l as [|b l IH]; intros a Ha Hch.
  - constructor; [assumption | constructor].
  - destruct Hch as [Hr Hch]. constructor; [assumption|].
    apply IH; [|assumption]. eapply get_neighbours_closed; eassumption.
Qed.

(** The estimate never drops by more than the road travelled. *)
Lemma distance_consistent (Map : list City) (dest p q : string) :
  In dest (keys Map) -> In p (keys Map) -> In q (keys Map) ->
  distance Map dest p <= distance Map p q + distance Map dest q.
Proof.
  intros Hd Hp Hq.
  pose proof (calc_cartesian_distance_triangle Map dest p q _ _ _
                (distance_keys Map dest p Hd Hp)
                (distance_keys Map dest q Hd Hq)
                (distance_keys Map p q Hp Hq)).
  lra.
Qed.

Lemma path_heading (Map : list City) (dest : string) (mid : list string) :
  In dest (keys Map) ->
  forall p n,
    Forall (fun k => In k (keys Map)) (p :: mid ++ [n]) ->
    distance Map dest p
    <= path_cost Map (p :: mid ++ [n]) + distance Map dest n.
Proof.
  intros Hd. induction mid as [|q mid IH]; intros p n Hk.
  - simpl. inversion Hk as [|? ? Hp Hk']; subst.
    inversion Hk' as [|? ? Hn _]; subst.
    pose proof (distance_consistent Map dest p n Hd Hp Hn). lra.
  - inversion Hk as [|? ? Hp Hk']; subst.
    pose proof (IH q n Hk') as IHq.
    inversion Hk' as [|? ? Hq _]; subst.
    pose proof (distance_consistent Map dest p q Hd Hp Hq).
    change (path_cost Map (p :: (q :: mid) ++ [n]))
      with (distance Map p q + path_cost Map (q :: mid ++ [n])).
    lra.
Qed.

(** Cost so far plus estimate does not decrease along a path. *)
Lemma prefix_bound (Map : list City) (dest : string)
    (front : list string) (p : string) (back l1 : list string) (k : string)
    (l2 : list string) :
  In dest (keys Map) ->
  Forall (fun x => In x (keys Map)) (front ++ p :: back) ->
  p :: back = l1 ++ k :: l2 ->
  path_cost Map (front ++ [p]) + distance Map dest p
  <= path_cost Map ((front ++ l1) ++ [k]) + distance Map dest k.
Proof.
  intros Hd Hk E. destruct l1 as [|p' l1]; simpl in E.
  - injection E as -> _. rewrite app_nil_r. lra.
  - injection E as <- ->.
    rewrite <- app_assoc. simpl.
    rewrite (path_cost_app Map front p (l1 ++ [k])).
    assert (Hk' : Forall (fun x => In x (keys Map)) (p :: l1 ++ [k])).
    { rewrite Forall_forall in *. intros x Hx. apply Hk.
      apply in_or_app. right. simpl in Hx |- *.
      destruct Hx as [Hx|Hx]; [now left | right].
      apply in_app_or in Hx. apply in_or_app.
      destruct Hx as [Hx|[<-|[]]]; [now left | right; now left]. }
    pose proof (path_heading Map dest l1 Hd p k Hk'). lra.
Qed.

Lemma descending_tail_least (rest : list Route) (curr r : Route) :
  descending (rest ++ [curr]) -> In r (rest ++ [curr]) ->
  heuristic curr <= heuristic r.
Proof.
  intros Hd Hr. apply descending_app in Hd. destruct Hd as (_ & _ & H).
  apply in_app_or in Hr. destruct Hr as [Hr|[<-|[]]].
  - apply H; [assumption | now left].
  - lra.
Qed.

(** A pass of a search that is on the path [P]: it returns a route to the
    destination that costs no more than [P], or the search is on [P] after
    it. *)
Lemma loop_body_path (Map : list City) (destination : City)
    (P : list string) (self : GPSGreedyBestFirst) :
  closed_map Map -> In (id destination) (keys Map) ->
  chain Map P -> Forall (fun k => In k (keys Map)) P ->
  last_item P = Ok (id destination) ->
  path_inv Map (id destination) P self ->
  (exists r self',
     loop_body Map self destination = Returned (Ok (Some r)) self' /\
     last_city_id r = Ok (id destination) /\
     cost r <= path_cost Map P) \/
  (exists self',
     loop_body Map self destination = Continue self' /\
     path_inv Map (id destination) P self').
Proof.
  intros Hc Hd Hch HkP HlastP
         [Hest Hdesc (front & p & back & r0 & EP & Hr0 & Hl0 & Hc0 & Hback)].
  assert (Hne : fringe self <> []) by (intros E; rewrite E in Hr0; contradiction).
  destruct (fringe_nonempty_pop _ Hne) as (rest & curr & Hpop).
  pose proof (pop_last_Some _ _ _ Hpop) as Hf.
  assert (HK : keyed_fringe Map self).
  { intros r Hr. destruct (Hest r Hr) as (k & H1 & H2 & _). now exists k. }
  destruct (loop_body_closed Map destination self rest curr Hc Hd HK Hpop)
    as (k & Hk & Hkin & Hcases).
  assert (Hcurr : In curr (fringe self))
    by (rewrite Hf; apply in_or_app; right; now left).
  (* the popped route is not above the route that is on the path *)
  assert (Hbound : cost curr + distance Map (id destination) k
                   <= path_cost Map (front ++ [p])
                      + distance Map (id destination) p).
  { destruct (Hest curr Hcurr) as (k1 & Hk1 & _ & He1).
    destruct (Hest r0 Hr0) as (k2 & Hk2 & _ & He2).
    assert (k1 = k) by congruence. assert (k2 = p) by congruence. subst.
    rewrite Hf in Hdesc, Hr0.
    pose proof (descending_tail_least rest curr r0 Hdesc Hr0) as Hmin.
    unfold heuristic in Hmin. lra. }
  rewrite EP in HkP.
  destruct Hcases as [(-> & s' & Hb)|(Hkd & s' & Hb & Hv & Hf' & HK')].
  - (* the destination is popped *)
    left. exists curr, s'. split; [exact Hb|]. split; [exact Hk|].
    assert (Hl : last_item (p :: back) = Ok (id destination)).
    { rewrite <- HlastP, EP. symmetry. apply last_item_app_cons. }
    destruct (last_item_Ok _ _ Hl) as [l1 El].
    pose proof (prefix_bound Map (id destination) front p back l1
                  (id destination) [] Hd HkP El) as Hp.
    rewrite EP, El. rewrite app_assoc. lra.
  - (* another city is popped and expanded *)
    right. exists s'. split; [exact Hb|].
    assert (Hrest : descending rest).
    { rewrite Hf in Hdesc. now apply descending_app in Hdesc. }
    set (E := expansion Map (visited self ++ [k]) curr k destination
                        (get_neighbours Map k)) in *.
    constructor.
    + intros r Hr. rewrite Hf' in Hr. apply fold_insert_In in Hr.
      destruct Hr as [Hr|Hr].
      * apply Hest. rewrite Hf. apply in_or_app. now left.
      * destruct (expansion_keyed _ _ _ _ _ _ _ Hr)
          as (n & d1 & d2 & _ & _ & Hn & _ & H2 & Hl & _ & He).
        exists n. repeat split; try assumption.
        rewrite He. symmetry. now apply distance_Ok.
    + rewrite Hf'. now apply fold_insert_descending.
    + destruct (in_dec string_dec k (p :: back)) as [Hin|Hnin].
      * destruct (in_split_last k _ Hin) as (l1 & l2 & El & Hnl2).
        pose proof (prefix_bound Map (id destination) front p back l1 k l2
                      Hd HkP El) as Hp.
        assert (Hgood : cost curr <= path_cost Map ((front ++ l1) ++ [k]))
          by lra.
        assert (EP' : P = (front ++ l1) ++ k :: l2)
          by (rewrite EP, El, <- app_assoc; reflexivity).
        assert (Hl2back : forall x, In x l2 -> In x back).
        { intros x Hx. destruct l1 as [|p' l1]; simpl in El.
          - injection El as _ ->. assumption.
          - injection El as _ ->. apply in_or_app. right. now right. }
        destruct l2 as [|m l2].
        { exfalso. apply Hkd. rewrite EP' in HlastP.
          rewrite last_item_app in HlastP. congruence. }
        assert (Hroad : road Map k m).
        { rewrite EP' in Hch. apply chain_app in Hch.
          destruct Hch as [_ Hch]. simpl in Hch. tauto. }
        assert (Hm : mem m (visited self ++ [k]) = false).
        { apply mem_false. intros Hx. apply in_app_or in Hx.
          destruct Hx as [Hx|[Hx|[]]].
          - apply (Hback m); [apply Hl2back; now left | assumption].
          - apply Hnl2. left. now symmetry. }
        assert (Hids : forall n, In n (get_neighbours Map k) ->
                                 In n (keys Map)).
        { intros n Hn. eapply get_neighbours_closed; [exact Hc | exact Hn]. }
        destruct (expansion_complete Map (visited self ++ [k]) curr k
                    destination (get_neighbours Map k) Hkin Hd Hids m Hroad Hm)
          as (c & HcE & Hcl).
        destruct (expansion_keyed _ _ _ _ _ _ _ HcE)
          as (n & d1 & d2 & _ & _ & _ & H1 & _ & Hl & Hcost & _).
        assert (n = m) by congruence. subst n.
        exists ((front ++ l1) ++ [k]), m, l2, c.
        split.
        { rewrite EP'.
          now rewrite <- (app_assoc (front ++ l1) [k] (m :: l2)). }
        split; [rewrite Hf'; apply fold_insert_In; now right|].
        split; [exact Hcl|]. split.
        -- rewrite (path_cost_snoc Map _ k m (last_item_app _ _)).
           rewrite Hcost, (distance_Ok _ _ _ _ H1). lra.
        -- intros x Hx Hvis. rewrite Hv in Hvis. apply in_app_or in Hvis.
           destruct Hvis as [Hvis|[Hvis|[]]].
           ++ apply (Hback x); [apply Hl2back; now right | assumption].
           ++ apply Hnl2. right. now subst.
      * exists front, p, back, r0.
        split; [exact EP|]. split.
        -- rewrite Hf'. apply fold_insert_In. left.
           rewrite Hf in Hr0. apply in_app_or in Hr0.
           destruct Hr0 as [Hr0|[Hr0|[]]]; [assumption|].
           exfalso. apply Hnin. left. subst r0. congruence.
        -- split; [exact Hl0|]. split; [exact Hc0|].
           intros x Hx Hvis. rewrite Hv in Hvis. apply in_app_or in Hvis.
           destruct Hvis as [Hvis|[Hvis|[]]].
           ++ now apply (Hback x).
           ++ apply Hnin. right. now subst.
Qed.

Lemma search_loop_path (Map : list City) (origin destination : City)
    (P : list string) (fuel : nat) (self : GPSGreedyBestFirst)
    (res : result (option Route)) (self' : GPSGreedyBestFirst) :
  closed_map Map -> In (id destination) (keys Map) ->
  chain Map P -> Forall (fun k => In k (keys Map)) P ->
  last_item P = Ok (id destination) ->
  path_inv Map (id destination) P self ->
  search_loop Map fuel self origin destination = Some (res, self') ->
  exists r,
    res = Ok (Some r) /\ last_city_id r = Ok (id destination) /\
    cost r <= path_cost Map P.
Proof.
  intros Hc Hd Hch HkP Hl HI H.
  assert (Hstep : forall s s1, path_inv Map (id destination) P s ->
            loop_body Map s destination = Continue s1 ->
            path_inv Map (id destination) P s1).
  { intros s s1 Hs Hb.
    destruct (loop_body_path Map destination P s Hc Hd Hch HkP Hl Hs)
      as [(r & s' & E & _)|(s' & E & Hs')]; [congruence|].
    assert (s' = s1) by congruence. now subst. }
  destruct (search_loop_invariant (path_inv Map (id destination) P) Map origin
              destination Hstep fuel self res self' HI H)
    as (s & Hs & [(Hemp & _)|(_ & Hb)]).
  - exfalso. destruct Hs as [_ _ (front & p & back & r & _ & Hr & _)].
    rewrite Hemp in Hr. contradiction.
  - destruct (loop_body_path Map destination P s Hc Hd Hch HkP Hl Hs)
      as [(r & s' & E & Hlast & Hcost)|(s' & E & _)]; [|congruence].
    rewrite E in Hb. injection Hb as <- _. now exists r.
Qed.

(** The engine at the entry of the loop is on any path from the origin whose
    later cities it has not visited. *)
Lemma path_inv_start (Map : list City) (origin destination : string)
    (back : list string) (vis : list string) (tr : list event) (dist : R) :
  calc_cartesian_distance Map origin destination = Ok dist ->
  (forall k, In k back -> ~ In k vis) ->
  path_inv Map destination (origin :: back)
           (mkGPS [mkRoute [origin] 0 dist] vis tr).
Proof.
  intros Ed Hback. constructor; simpl.
  - intros r [<-|[]]. exists origin.
    split; [reflexivity|]. split.
    + now apply (calc_cartesian_distance_keys Map origin destination dist).
    + simpl. symmetry. apply distance_Ok.
      now apply calc_cartesian_distance_sym.
  - split; [constructor | exact I].
  - exists [], origin, back, (mkRoute [origin] 0 dist). simpl.
    repeat split; [now left | lra | assumption].
Qed.

Lemma last_item_In {A : Type} (l : list A) (x : A) :
  last_item l = Ok x -> In x l.
Proof.
  intros H. destruct (last_item_Ok _ _ H) as [init ->].
  apply in_or_app. right. now left.
Qed.



Lemma reachable_chain (Map : list City) (a b : string) :
  reachable Map a b ->
  exists back, chain Map (a :: back) /\ last_item (a :: back) = Ok b.
Proof.
  induction 1 as [|x y _ (back & Hch & Hl) Hxy].
  - exists []. split; [exact I | reflexivity].
  - exists (back ++ [y]). split.
    + change (a :: back ++ [y]) with ((a :: back) ++ [y]).
      now apply chain_snoc with (k := x).
    + change (a :: back ++ [y]) with ((a :: back) ++ [y]).
      apply last_item_app.
Qed.

(** X14. On a map whose neighbour keys all name cities, a search on a fresh
    engine finds a route to every destination that a chain of neighbour
    links reaches from the origin: it does not return [None] and does not
    raise. *)
Theorem search_finds_reachable (Map : list City)
    (origin destination : City) :
  closed_map Map ->
  In (id origin) (keys Map) ->
  reachable Map (id origin) (id destination) ->
  exists fuel route self',
    search Map fuel init origin destination = Some (Ok (Some route), self') /\
    last_city_id route = Ok (id destination).
Proof.
  intros Hc Ho Hr.
  destruct (reachable_chain Map _ _ Hr) as (back & Hch & Hl).
  pose proof (chain_keys Map back (id origin) Hc Ho Hch) as HkP.
  pose proof (reachable_in_keys Map _ _ Hc Ho Hr) as Hd.
  unfold search.
  destruct (calc_cartesian_distance_In Map _ _ Ho Hd) as [dist Ed].
  rewrite Ed. set (s0 := add_route _ _).
  destruct (search_loop_terminates Map origin destination
              (passes_bound Map s0) s0 (le_n _)) as [[res self'] Hout].
  assert (H0 : path_inv Map (id destination) (id origin :: back) s0).
  { apply path_inv_start; [exact Ed | intros k _ []]. }
  destruct (search_loop_path Map origin destination (id origin :: back) _ s0
              res self' Hc Hd Hch HkP Hl H0 Hout) as (r & -> & Hlast & _).
  exists (passes_bound Map s0), r, self'. split; assumption.
Qed.

Lemma search_finds_reachable_witness :
  exists fuel route self',
    search GoiasMap fuel init Goiania CaldasNovas
      = Some (Ok (Some route), self') /\
    last_city_id route = Ok "CaldasNovas".
Proof.
  apply (search_finds_reachable GoiasMap Goiania CaldasNovas Goias_closed).
  - simpl. tauto.
  - apply reach_road with (a := "Cristianopolis");
      [|unfold road; simpl; tauto].
    apply reach_road with (a := "BelaVista");
      [|unfold road; simpl; tauto].
    apply reach_road with (a := "Goiania");
      [constructor | unfold road; simpl; tauto].
Defined.

(** ** What the outcome of a search tells *)

Lemma calc_cartesian_distance_raise (Map : list City) (a b : string)
    (e : exn) :
  calc_cartesian_distance Map a b = Raise e ->
  exists key, e = KeyError key /\ ~ In key (keys Map).
Proof.
  unfold calc_cartesian_distance, Map_getitem.
  destruct (find (fun city => String.eqb (id city) a) Map) eqn:Ea.
  - destruct (find (fun city => String.eqb (id city) b) Map) eqn:Eb;
      [discriminate|].
    intros [= <-]. exists b. split; [reflexivity | now apply find_key_None].
  - intros [= <-]. exists a. split; [reflexivity | now apply find_key_None].
Qed.

Lemma add_routes_loop_raise (Map : list City) (route : Route)
    (last_id : string) (destination : City) (ids : list string) :
  forall self e self',
    add_routes_loop Map self route last_id destination ids = (Raise e, self') ->
    exists key, e = KeyError key /\ ~ In key (keys Map).
Proof.
  induction ids as [|n ids IH]; intros self e self' H; simpl in H.
  - discriminate.
  - destruct (mem n (visited self)); [now apply IH in H|].
    destruct (calc_cartesian_distance Map last_id n) as [d1|e1] eqn:E1.
    + destruct (calc_cartesian_distance Map (id destination) n)
        as [d2|e2] eqn:E2.
      * now apply IH in H.
      * injection H as <- _. now apply calc_cartesian_distance_raise in E2.
    + injection H as <- _. now apply calc_cartesian_distance_raise in E1.
Qed.

(** X16. What a finished search tells, on any engine: [None] is returned
    only with the fringe empty; a returned route ends at the destination;
    an exception is an [IndexError] or a [KeyError] for a key that names no
    city of the map. *)
Theorem search_result_meaning (Map : list City) (fuel : nat)
    (self : GPSGreedyBestFirst) (origin destination : City)
    (res : result (option Route)) (self' : GPSGreedyBestFirst) :
  search Map fuel self origin destination = Some (res, self') ->
  (res = Ok None -> fringe self' = []) /\
  (forall r, res = Ok (Some r) -> last_city_id r = Ok (id destination)) /\
  (forall e, res = Raise e ->
     e = IndexError \/ exists key, e = KeyError key /\ ~ In key (keys Map)).
Proof.
  unfold search.
  destruct (calc_cartesian_distance Map (id origin) (id destination))
    as [dist|e0] eqn:Ed.
  2:{ intros H. injection H as <- _.
      split; [discriminate|]. split; [discriminate|].
      intros e [= <-]. right. now apply calc_cartesian_distance_raise in Ed. }
  intros H.
  destruct (search_loop_invariant (fun _ => True) Map origin destination
              (fun _ _ _ _ => I) fuel _ res self' I H)
    as (s & _ & [(Hemp & -> & ->)|(Hne & Hb)]).
  - split; [intros _; exact Hemp|]. split; discriminate.
  - destruct (fringe_nonempty_pop _ Hne) as (rest & curr & Hpop).
    destruct (loop_body_inv Map s destination rest curr Hpop)
      as [[_ E]|[[Hl E]|(k & s1 & _ & _ & _ & _ & _ & _ & r1 & Hloop & E)]];
      rewrite E in Hb.
    + injection Hb as <- _. split; [discriminate|]. split; [discriminate|].
      intros e [= <-]. now left.
    + injection Hb as <- _. split; [discriminate|].
      split; [intros r [= <-]; exact Hl | discriminate].
    + destruct r1 as [u|e1]; [discriminate|].
      injection Hb as <- _. split; [discriminate|]. split; [discriminate|].
      intros e [= <-]. right. now apply add_routes_loop_raise in Hloop.
Qed.

Lemma search_result_meaning_witness :
  exists st,
    search DetourMap 6 init detourA detourD = Some (Ok None, st) /\
    fringe st = [].
Proof.
  destruct detour_run as (_ & st & H6 & _).
  destruct (search_result_meaning DetourMap 6 init detourA detourD (Ok None)
              st H6) as (Hnone & _).
  exists st. split; [exact H6 | now apply Hnone].
Defined.

Lemma chain_reachable (Map : list City) (origin : string) (ks : list string) :
  forall k,
    hd_error ks = Some origin -> chain Map ks -> last_item ks = Ok k ->
    reachable Map origin k.
Proof.
  induction ks as [|x l IH] using rev_ind; intros k Hh Hc Hl.
  - discriminate.
  - rewrite last_item_app in Hl. injection Hl as ->.
    destruct l as [|a l] using rev_ind.
    + simpl in Hh. injection Hh as ->. constructor.
    + clear IHl. rewrite <- app_assoc in Hc. simpl in Hc.
      apply chain_app in Hc. destruct Hc as [Hc1 Hc2].
      apply reach_road with (a := a).
      * apply IH; [|assumption | apply last_item_app].
        destruct (l ++ [a]) eqn:El; [now destruct l | exact Hh].
      * simpl in Hc2. tauto.
Qed.

(** X17. Every city that a search on a fresh engine puts in the visited list
    is a city of the map that a chain of neighbour links reaches from the
    origin, however the search ends. *)
Theorem search_visits_reachable (Map : list City) (fuel : nat)
    (origin destination : City) (res : result (option Route))
    (self' : GPSGreedyBestFirst) :
  search Map fuel init origin destination = Some (res, self') ->
  forall k, In k (visited self') ->
    reachable Map (id origin) k /\ In k (keys Map).
Proof.
  unfold search.
  destruct (calc_cartesian_distance Map (id origin) (id destination))
    as [dist|e0] eqn:Ed.
  2:{ intros H. injection H as _ <-. intros k []. }
  set (s0 := add_route _ _). intros H.
  set (Inv := fun s : GPSGreedyBestFirst =>
         sound_fringe Map (id origin) (id destination) s /\
         forall k, In k (visited s) ->
           reachable Map (id origin) k /\ In k (keys Map)).
  assert (Hlast : forall s curr k,
            sound_fringe Map (id origin) (id destination) s ->
            In curr (fringe s) -> last_city_id curr = Ok k ->
            reachable Map (id origin) k /\ In k (keys Map)).
  { intros s curr k HS Hcurr Hk.
    destruct (HS curr Hcurr) as [[Hs Hc Hkeys _ _ _] _]. split.
    - now apply chain_reachable with (ks := cities_ids curr).
    - rewrite Forall_forall in Hkeys. apply Hkeys.
      now apply last_item_In. }
  assert (H0 : Inv s0).
  { split; [|intros k []].
    intros r Hr. unfold s0 in Hr. simpl in Hr. destruct Hr as [<-|[]].
    destruct (calc_cartesian_distance_keys _ _ _ _ Ed) as [Ho Hd].
    split.
    - constructor; simpl.
      + reflexivity.
      + exact I.
      + constructor; [assumption | constructor].
      + constructor; [intros [] | constructor].
      + reflexivity.
      + exists (id origin). split; [reflexivity|].
        symmetry. apply distance_Ok.
        now apply calc_cartesian_distance_sym.
    - intros init k E. destruct init as [|a init].
      + intros x [].
      + simpl in E. injection E as _ E. now destruct init. }
  assert (Hpass : forall s rest curr k s1,
            Inv s -> pop_last (fringe s) = Some (rest, curr) ->
            last_city_id curr = Ok k ->
            visited s1 = visited s ++ [k] ->
            forall x, In x (visited s1) ->
              reachable Map (id origin) x /\ In x (keys Map)).
  { intros s rest curr k s1 [HS HV] Hpop Hk Hv x Hx.
    rewrite Hv in Hx. apply in_app_or in Hx. destruct Hx as [Hx|[E|[]]].
    - now apply HV.
    - subst x. apply (Hlast s curr k HS); [|assumption].
      rewrite (pop_last_Some _ _ _ Hpop). apply in_or_app. right. now left. }
  assert (Hstep : forall s s1, Inv s ->
            loop_body Map s destination = Continue s1 -> Inv s1).
  { intros s s1 HI Hb. split.
    - destruct HI as [HS _]. eapply loop_body_sound; eassumption.
    - destruct (pop_last (fringe s)) as [[rest curr]|] eqn:Hpop.
      2:{ unfold loop_body, next_route in Hb. rewrite Hpop in Hb.
          discriminate. }
      destruct (loop_body_inv Map s destination rest curr Hpop)
        as [[_ E]|[[_ E]|(k & s2 & Hk & _ & Hc & Hv & _)]];
        try (rewrite E in Hb; discriminate).
      assert (s2 = s1) as ->.
      { destruct Hc as [E|[e E]]; rewrite E in Hb; congruence. }
      now apply (Hpass s rest curr k s1). }
  destruct (search_loop_invariant Inv Map origin destination Hstep fuel s0 res
              self' H0 H) as (s & HI & [(_ & _ & ->)|(Hne & Hb)]).
  - destruct HI as [_ HV]. exact HV.
  - destruct (fringe_nonempty_pop _ Hne) as (rest & curr & Hpop).
    destruct (loop_body_inv Map s destination rest curr Hpop)
      as [[_ E]|[[_ E]|(k & s1 & Hk & _ & Hc & Hv & _)]].
    + rewrite E in Hb. injection Hb as _ <-. destruct HI as [_ HV]. exact HV.
    + rewrite E in Hb. injection Hb as _ <-. destruct HI as [_ HV]. exact HV.
    + assert (s1 = self') as ->.
      { destruct Hc as [E|[e E]]; rewrite E in Hb; congruence. }
      now apply (Hpass s rest curr k self').
Qed.

Lemma search_visits_reachable_witness :
  reachable DetourMap "A" "B2" /\ In "B2" (keys DetourMap).
Proof.
  destruct detour_run as (_ & st & H6 & Hv).
  apply (search_visits_reachable DetourMap 6 detourA detourD (Ok None) st H6).
  rewrite Hv. simpl. tauto.
Defined.
